(** * RecordDB: a keyed record store in one flat file

    A shallow embedding of [RecordDB<T>] (RecordDB.h) and the properties its
    specification states.  The store keeps fixed-size records
    [{ char key[32]; T data; uint8_t crc; }] one after the other in a file on
    a flash file system; every operation is one pass over that file.

    Layout of the development:
    - bytes, the CRC-8 of the source and the bit-serial CRC-8 of the
      specification;
    - C strings ([strlen], [strlcpy], [strcmp]) on byte buffers;
    - the file system the store is written against, as a state monad over
      the files and the list of calls made so far;
    - the operations of the class, line by line;
    - the theorems. *)

From Stdlib Require Import ZArith Lia Strings.Byte.
From stdpp Require Import base option list gmap strings.

(** ** Bytes and 8-bit arithmetic *)

Definition byte := Byte.byte.

#[global] Instance byte_eq_dec : EqDecision byte := Byte.byte_eq_dec.
#[global] Instance byte_inhabited : Inhabited byte := populate Byte.x00.

(** Truncation of an [int] to [uint8_t]. *)
Definition u8 (z : Z) : Z := Z.land z 255.

Definition byte_val (b : byte) : Z := Z.of_N (Byte.to_N b).

Definition byte_of (z : Z) : byte :=
  default Byte.x00 (Byte.of_N (Z.to_N (u8 z))).

(** ** CRC-8 as the source computes it (RecordDB.h, computeCRC)

    [crc = (crc & 0x80) ? (crc << 1) ^ 0x07 : (crc << 1)], the result stored
    back into a [uint8_t]. *)
Definition crc_shift (crc : Z) : Z :=
  if Z.eqb (Z.land crc 128) 0 then u8 (Z.shiftl crc 1)
  else u8 (Z.lxor (Z.shiftl crc 1) 7).

(** One round of the outer loop: [crc ^= p[i]], then eight shifts. *)
Definition crc_byte (crc : Z) (b : byte) : Z :=
  Nat.iter 8 crc_shift (u8 (Z.lxor crc (byte_val b))).

(** The outer loop over a run of bytes, from [crc = 0]. *)
Definition crc8 (p : list byte) : Z := fold_left crc_byte p 0%Z.

(** ** CRC-8 as the specification words it

    Polynomial x^8 + x^2 + x + 1, initial value 0, the message fed bit by
    bit, most significant bit of each byte first, into an 8-bit shift
    register with feedback taps 0x07. *)
Definition bits_msb_first (b : byte) : list bool :=
  map (fun j => Z.testbit (byte_val b) (Z.of_nat j)) [7; 6; 5; 4; 3; 2; 1; 0].

Definition lfsr_step (reg : Z) (bit : bool) : Z :=
  let feedback := xorb (Z.testbit reg 7) bit in
  let shifted := Z.land (Z.shiftl reg 1) 255 in
  if feedback then Z.lxor shifted 7 else shifted.

Definition crc8_reference (msg : list byte) : Z :=
  fold_left lfsr_step (concat (map bits_msb_first msg)) 0%Z.

(** ** C strings

    A [const char*] argument is either null ([None]) or points at bytes; the
    list holds the bytes at the pointer and its end stands for the
    terminator, so a zero byte inside the list ends the string early exactly
    as it does in C. *)
Definition cstring := option (list byte).

Fixpoint strlen (s : list byte) : nat :=
  match s with
  | [] => 0
  | c :: s' => if decide (c = Byte.x00) then 0 else S (strlen s')
  end.

(** [strlcpy(dst, src, size)]: at most [size - 1] characters, then a
    terminator; the rest of [dst] is left as it was. *)
Definition strlcpy (dst src : list byte) (size : nat) : list byte :=
  match size with
  | 0 => dst
  | S room => list_inserts 0 (take (min (strlen src) room) src ++ [Byte.x00]) dst
  end.

(** [strcmp]: the difference of the first pair of bytes that differ, 0 when
    both strings end together. *)
Fixpoint strcmp (s1 s2 : list byte) : Z :=
  match s1, s2 with
  | [], [] => 0
  | [], c2 :: _ => 0 - byte_val c2
  | c1 :: _, [] => byte_val c1
  | c1 :: t1, c2 :: t2 =>
      if decide (c1 = c2)
      then (if decide (c1 = Byte.x00) then 0 else strcmp t1 t2)
      else byte_val c1 - byte_val c2
  end%Z.

(** The characters of a C string: everything before the terminator. *)
Definition cstr (s : list byte) : list byte := take (strlen s) s.

(** ** The payload type and the record layout

    [T] is a template parameter.  What the store needs of it is its size
    and how much the compiler pads [Record] after [crc].  The members of
    [struct Record { char key[32]; T data; uint8_t crc; }] lie in the order
    they are declared: 32 key bytes, [sizeof(T)] payload bytes (32 is a
    multiple of every alignment in use, so nothing is inserted before
    [data]), the checksum byte at offset [32 + sizeof(T)], and then the tail
    padding that makes [sizeof(Record)] a multiple of [alignof(T)]: none
    for a byte-aligned [T], three bytes for a 4-byte aligned [T] whose size
    is a multiple of four.  A value of [T] is its byte image, [sizeT] bytes
    long. *)
Class Payload := { sizeT : nat; tail_pad : nat }.

Definition key_size : nat := 32.

Section Layout.
Context `{Payload}.

Definition data_off : nat := key_size.
Definition crc_off : nat := key_size + sizeT.
Definition sizeofRecord : nat := key_size + sizeT + 1 + tail_pad.

(** Field reads of a [Record] held in a buffer.  [rec.key] is the array of
    32 bytes.  [strcmp(rec.key, key)] stays inside the array when the key
    has fewer than 32 characters or the array holds a terminator; past the
    array the source goes on reading, which the array read here does not
    follow, so the theorems on key comparison take one of the two. *)
Definition rec_key (rec : list byte) : list byte := take key_size rec.
Definition rec_data (rec : list byte) : list byte := take sizeT (drop data_off rec).
Definition rec_crc (rec : list byte) : byte := rec !!! crc_off.

(** [computeCRC]: the first [sizeof(Record) - 1] bytes of the record. *)
Definition computeCRC (rec : list byte) : Z :=
  let len := sizeofRecord - 1 in
  crc8 (take len rec).

(** The test every scan applies: [computeCRC(&rec) != rec.crc] means the
    slot is skipped. *)
Definition crc_ok (rec : list byte) : bool :=
  Z.eqb (computeCRC rec) (byte_val (rec_crc rec)).

(** The record [insert] builds: [memset], [strlcpy], [rec.data = data],
    [rec.crc = computeCRC(&rec)]. *)
Definition make_record (key data : list byte) : list byte :=
  let rec := replicate sizeofRecord Byte.x00 in
  let rec := strlcpy rec key key_size in
  let rec := list_inserts data_off data rec in
  <[crc_off := byte_of (computeCRC rec)]> rec.
End Layout.

(** Two payload types used in the examples: [uint8_t] (byte-aligned, no
    padding) and [int32_t] (4-byte aligned, [sizeof(Record) = 40] with the
    checksum at offset 36). *)
Definition payload_u8 : Payload := {| sizeT := 1; tail_pad := 0 |}.
Definition payload_i32 : Payload := {| sizeT := 4; tail_pad := 3 |}.

(** ** The file system

    The store is written against SPIFFS, which the repository uses and does
    not contain.  Its calls follow the FileSystem contract of the
    specification: files are byte strings under paths; every call succeeds
    unless it opens a missing file for reading.  The state keeps the files
    and, in [calls], every call made so far. *)
Inductive open_mode := ModeRead | ModeWrite | ModeAppend.

Inductive fs_call :=
| CallOpen (path : string) (mode : open_mode)
| CallRead (path : string) (got : nat)
| CallWrite (path : string) (data : list byte)
| CallClose (path : string)
| CallRemove (path : string)
| CallRename (src dst : string).

Record FS := { files : gmap string (list byte); calls : list fs_call }.

Definition io (A : Type) : Type := FS → A * FS.

#[global] Instance io_ret : MRet io := λ A a fs, (a, fs).
#[global] Instance io_bind : MBind io :=
  λ A B k m fs, let (a, fs') := m fs in k a fs'.

(** An open [File]: its path, and for a file open for reading the bytes it
    has yet to hand out, as they were when it was opened.  The store writes
    to no path but the sidecar while it reads the database file, and the
    theorems about [remove] ask for the two paths to differ. *)
Record File := { f_path : string; f_rest : list byte }.

Definition record_call (c : fs_call) : io unit :=
  λ fs, (tt, {| files := files fs; calls := calls fs ++ [c] |}).

Definition set_file (path : string) (content : list byte) : io unit :=
  λ fs, (tt, {| files := <[path := content]> (files fs); calls := calls fs |}).

Definition get_file (path : string) : io (option (list byte)) :=
  λ fs, (files fs !! path, fs).

(** Modelled from the spec: [SPIFFS.open(path, mode)].  Reading fails on
    a missing file, writing truncates, appending creates the file. *)
Definition fs_open (path : string) (mode : open_mode) : io (option File) :=
  _ ← record_call (CallOpen path mode);
  old ← get_file path;
  match mode with
  | ModeRead =>
      mret ((λ content, {| f_path := path; f_rest := content |}) <$> old)
  | ModeWrite =>
      _ ← set_file path [];
      mret (Some {| f_path := path; f_rest := [] |})
  | ModeAppend =>
      _ ← set_file path (default [] old);
      mret (Some {| f_path := path; f_rest := [] |})
  end.

(** Modelled from the spec: [file.read(buffer, len)] hands out what is
    left of the file, [len] bytes at most. *)
Definition file_read (f : File) (len : nat) : io (list byte * File) :=
  let buf := take len (f_rest f) in
  _ ← record_call (CallRead (f_path f) (length buf));
  mret (buf, {| f_path := f_path f; f_rest := drop len (f_rest f) |}).

(** Modelled from the spec: [file.write(buffer, len)] puts all of the
    buffer at the end of the file and answers its length. *)
Definition file_write (f : File) (data : list byte) : io nat :=
  _ ← record_call (CallWrite (f_path f) data);
  old ← get_file (f_path f);
  _ ← set_file (f_path f) (default [] old ++ data);
  mret (length data).

(** Modelled from the spec: [file.close()]. *)
Definition file_close (f : File) : io unit :=
  record_call (CallClose (f_path f)).

Definition delete_file (path : string) : io bool :=
  λ fs, (bool_decide (is_Some (files fs !! path)),
         {| files := delete path (files fs); calls := calls fs |}).

Definition move_file (src dst : string) : io bool :=
  λ fs, match files fs !! src with
        | Some content =>
            (true, {| files := <[dst := content]> (delete src (files fs));
                      calls := calls fs |})
        | None => (false, fs)
        end.

(** Modelled from the spec: [SPIFFS.remove(path)]. *)
Definition fs_remove (path : string) : io bool :=
  _ ← record_call (CallRemove path);
  delete_file path.

(** Modelled from the spec: [SPIFFS.rename(src, dst)]. *)
Definition fs_rename (src dst : string) : io bool :=
  _ ← record_call (CallRename src dst);
  move_file src dst.

(** ** The read loop

    [while (file.read(&rec, sizeof(Record)) == sizeof(Record)) body]
    with a body that either goes round again ([continue], or falling off its
    end) or leaves the function ([return]).  The loop ends by itself at the
    first short read; [fuel] bounds the number of rounds and is set by the
    callers to more than the file can supply. *)
Inductive ctl (S : Type) := Continue (s : S) | Return (s : S).
Arguments Continue {S} s.
Arguments Return {S} s.

Fixpoint while_read `{Payload} {S : Type} (fuel : nat)
    (body : list byte → S → io (ctl S)) (f : File) (s : S) : io S :=
  match fuel with
  | 0 => mret s
  | Datatypes.S fuel' =>
      '(rec, f') ← file_read f sizeofRecord;
      if length rec =? sizeofRecord then
        c ← body rec s;
        match c with
        | Continue s' => while_read fuel' body f' s'
        | Return s' => mret s'
        end
      else mret s
  end.

(** ** RecordDB

    The object holds its path and nothing else. *)
Record RecordDB := { dbPath : string }.

Definition temp_db : string := "/temp.db".

Section Operations.
Context `{Payload}.
Variable db : RecordDB.

(** The loop bodies, one per scan.  [remove] copies the live records of
    other keys to the sidecar and notes a match; [query] leaves at the
    first live match; [count] counts and [selectAll] calls back on the live
    records. *)
Definition remove_body (dst : File) (k : list byte)
    (rec : list byte) (found : bool) : io (ctl bool) :=
  if negb (crc_ok rec) then mret (Continue found)
  else if negb (Z.eqb (strcmp (rec_key rec) k) 0) then
    _ ← file_write dst rec; mret (Continue found)
  else mret (Continue true).

Definition query_body (k : list byte)
    (rec : list byte) (out : option (list byte)) : io (ctl (option (list byte))) :=
  if negb (crc_ok rec) then mret (Continue out)
  else if Z.eqb (strcmp (rec_key rec) k) 0 then
    mret (Return (Some (rec_data rec)))
  else mret (Continue out).

Definition count_body (rec : list byte) (n : nat) : io (ctl nat) :=
  if negb (crc_ok rec) then mret (Continue n)
  else mret (Continue (n + 1)).

Definition select_body {V : Type} (callback : list byte → list byte → V → V)
    (rec : list byte) (v : V) : io (ctl V) :=
  if negb (crc_ok rec) then mret (Continue v)
  else mret (Continue (callback (rec_key rec) (rec_data rec) v)).

(** [bool remove(const char* key)] *)
Definition remove (key : cstring) : io bool :=
  match key with
  | None => mret false
  | Some k =>
      src ← fs_open (dbPath db) ModeRead;
      match src with
      | None => mret false
      | Some src =>
          dst ← fs_open temp_db ModeWrite;
          match dst with
          | None => _ ← file_close src; mret false
          | Some dst =>
              found ← while_read (Datatypes.S (length (f_rest src)))
                (remove_body dst k) src false;
              _ ← file_close src;
              _ ← file_close dst;
              if found : bool then
                _ ← fs_remove (dbPath db);
                _ ← fs_rename temp_db (dbPath db);
                mret found
              else
                _ ← fs_remove temp_db;
                mret found
          end
      end
  end.

(** [bool insert(const char* key, const T& data)] *)
Definition insert (key : cstring) (data : list byte) : io bool :=
  match key with
  | None => mret false
  | Some k =>
      if key_size <=? strlen k then mret false
      else
        _ ← remove key;
        file ← fs_open (dbPath db) ModeAppend;
        match file with
        | None => mret false
        | Some file =>
            let rec := make_record k data in
            written ← file_write file rec;
            _ ← file_close file;
            mret (written =? sizeofRecord)
        end
  end.

(** [bool query(const char* key, T& data)]: [Some] of the payload copied
    out when the answer is [true], [None] when it is [false]. *)
Definition query (key : cstring) : io (option (list byte)) :=
  match key with
  | None => mret None
  | Some k =>
      file ← fs_open (dbPath db) ModeRead;
      match file with
      | None => mret None
      | Some file =>
          r ← while_read (Datatypes.S (length (f_rest file)))
            (query_body k) file None;
          _ ← file_close file;
          mret r
      end
  end.

(** [bool exists(const char* key)] *)
Definition exists_ (key : cstring) : io bool :=
  r ← query key; mret (bool_decide (is_Some r)).

(** [size_t count()] *)
Definition count : io nat :=
  file ← fs_open (dbPath db) ModeRead;
  match file with
  | None => mret 0
  | Some file =>
      n ← while_read (Datatypes.S (length (f_rest file)))
        count_body file 0;
      _ ← file_close file;
      mret n
  end.

(** [void selectAll(F callback)]: the callback acts on a state of the
    caller's, of any type [V]; it is handed [rec.key] and [rec.data]. *)
Definition selectAll {V : Type} (callback : list byte → list byte → V → V)
    (v : V) : io V :=
  file ← fs_open (dbPath db) ModeRead;
  match file with
  | None => mret v
  | Some file =>
      v' ← while_read (Datatypes.S (length (f_rest file)))
        (select_body callback) file v;
      _ ← file_close file;
      mret v'
  end.

(** [void clear()] *)
Definition clear : io unit :=
  _ ← fs_remove (dbPath db); mret tt.
End Operations.

(** ** Definitions used by the statements *)

(** The 256 values of a [uint8_t]. *)
Definition all_u8 : list Z := Z.of_nat <$> seq 0 256.

(** The key field [insert] leaves in a record: the characters of the key,
    then zeros up to 32 bytes. *)
Definition key_field (key : list byte) : list byte :=
  cstr key ++ replicate (key_size - strlen key) Byte.x00.

Section Slots.
Context `{Payload}.

(** The record [insert] has built before it fills the checksum in. *)
Definition unsealed (k data : list byte) : list byte :=
  key_field k ++ data ++ replicate (1 + tail_pad) Byte.x00.

(** The slots of a file: its content cut into pieces of [sizeof(Record)]
    bytes, a shorter rest at the end left out. *)
Definition slots (content : list byte) : list (list byte) :=
  reshape (replicate (length content `div` sizeofRecord) sizeofRecord) content.

(** A file made of whole slots only. *)
Definition aligned (content : list byte) : Prop :=
  length content `mod` sizeofRecord = 0.

(** A slot is live when its checksum matches its bytes. *)
Definition live (rec : list byte) : Prop :=
  computeCRC rec = byte_val (rec_crc rec).

(** A slot carries key [k] when [strcmp(rec.key, k) == 0]. *)
Definition has_key (k : list byte) (rec : list byte) : Prop :=
  strcmp (rec_key rec) k = 0%Z.

#[global] Instance live_dec rec : Decision (live rec) := Z.eq_dec _ _.
#[global] Instance has_key_dec k rec : Decision (has_key k rec) := Z.eq_dec _ _.

(** The state after the full read that starts a round of the loop. *)
Definition after_read (path : string) (fs : FS) : FS :=
  {| files := files fs; calls := calls fs ++ [CallRead path sizeofRecord] |}.

(** The read loop told as a walk over the slots: one full read per slot,
    and the short read that ends the loop. *)
Fixpoint over_slots {S : Type} (path : string)
    (body : list byte → S → io (ctl S)) (rs : list (list byte))
    (rest : nat) (s : S) : io S :=
  match rs with
  | [] => _ ← record_call (CallRead path rest); mret s
  | rec :: rs' =>
      _ ← record_call (CallRead path sizeofRecord);
      c ← body rec s;
      match c with
      | Continue s' => over_slots path body rs' rest s'
      | Return s' => mret s'
      end
  end.
End Slots.

Section StoreView.
Context `{Payload}.
Variable db : RecordDB.

(** The slots of the database file; none when the file is missing. *)
Definition db_slots (fs : FS) : list (list byte) :=
  from_option slots [] (files fs !! dbPath db).

(** The live records of the store, in file order. *)
Definition live_records (fs : FS) : list (list byte) :=
  filter live (db_slots fs).

(** The key of a slot as [strcmp] sees it. *)
Definition key_of (rec : list byte) : list byte := cstr (rec_key rec).

(** At most one live record per key. *)
Definition unique_keys (fs : FS) : Prop :=
  NoDup (key_of <$> live_records fs).

(** The database file, when there is one, is made of whole slots. *)
Definition db_aligned (fs : FS) : Prop :=
  ∀ content, files fs !! dbPath db = Some content → aligned content.

(** The state a store is in between calls: whole slots, keys unique. *)
Definition store_ok (fs : FS) : Prop := db_aligned fs ∧ unique_keys fs.

(** A record without its checksum byte. *)
Definition without_crc (rec : list byte) : list byte :=
  take crc_off rec ++ drop (S crc_off) rec.

(** The first live record with key [k]: what [query] is to find. *)
Definition find_live (k : list byte) (rs : list (list byte)) : option (list byte) :=
  head (filter (has_key k) rs).

(** What [selectAll] hands to a callback that writes down its
    arguments. *)
Definition visit (key data : list byte) (seen : list (list byte * list byte))
  : list (list byte * list byte) := seen ++ [(key, data)].

(** Corruption from outside: one byte of the database file replaced. *)
Definition corrupt (offset : nat) (b : byte) (fs : FS) : FS :=
  {| files := alter (λ content, <[offset := b]> content) (dbPath db) (files fs);
     calls := calls fs |}.

(** The calls of the class, for sequences of them. *)
Inductive op :=
| OpInsert (key : cstring) (data : list byte)
| OpRemove (key : cstring)
| OpQuery (key : cstring)
| OpExists (key : cstring)
| OpCount
| OpSelectAll
| OpClear.

Definition exec (o : op) : io unit :=
  match o with
  | OpInsert key data => _ ← insert db key data; mret tt
  | OpRemove key => _ ← remove db key; mret tt
  | OpQuery key => _ ← query db key; mret tt
  | OpExists key => _ ← exists_ db key; mret tt
  | OpCount => _ ← count db; mret tt
  | OpSelectAll => _ ← selectAll db visit []; mret tt
  | OpClear => clear db
  end.

(** An [insert] is handed a value of [T]: [sizeT] bytes. *)
Definition well_typed (o : op) : Prop :=
  match o with
  | OpInsert _ data => length data = sizeT
  | _ => True
  end.

Definition run (ops : list op) (fs : FS) : FS :=
  fold_left (λ fs o, snd (exec o fs)) ops fs.

(** A store never used, or cleared: there is no database file. *)
Definition fresh (fs : FS) : Prop := files fs !! dbPath db = None.

(** The states the class itself can bring a fresh store to. *)
Inductive reachable : FS → Prop :=
| reach_fresh fs : fresh fs → reachable fs
| reach_step fs o : reachable fs → well_typed o → reachable (snd (exec o fs)).

(** Successful calls in a sequence, as one would count them from the
    return values: [insert]s that answered [true], [remove] calls that
    answered [true]. *)
Fixpoint successful_inserts (ops : list op) (fs : FS) : nat :=
  match ops with
  | [] => 0
  | o :: ops' =>
      (match o with
       | OpInsert key data => if fst (insert db key data fs) then 1 else 0
       | _ => 0
       end) + successful_inserts ops' (snd (exec o fs))
  end.

Fixpoint successful_removes (ops : list op) (fs : FS) : nat :=
  match ops with
  | [] => 0
  | o :: ops' =>
      (match o with
       | OpRemove key => if fst (remove db key fs) then 1 else 0
       | _ => 0
       end) + successful_removes ops' (snd (exec o fs))
  end.

(** The [remove] that [insert] performs itself, on a key it accepts, and
    whether it found a record. *)
Definition replaced (key : cstring) (fs : FS) : bool :=
  match key with
  | None => false
  | Some k => if key_size <=? strlen k then false else fst (remove db key fs)
  end.

(** The [insert]s of a sequence that found and removed an older record. *)
Fixpoint replacements (ops : list op) (fs : FS) : nat :=
  match ops with
  | [] => 0
  | o :: ops' =>
      (match o with
       | OpInsert key _ => if replaced key fs then 1 else 0
       | _ => 0
       end) + replacements ops' (snd (exec o fs))
  end.

(** The balance of a sequence: records put in minus records taken out,
    a [remove] counted wherever it happens (called, or inside [insert]),
    and [clear] setting the balance back to zero. *)
Fixpoint balance (ops : list op) (fs : FS) (acc : Z) : Z :=
  match ops with
  | [] => acc
  | o :: ops' =>
      balance ops' (snd (exec o fs))
        (match o with
         | OpInsert key data =>
             acc + (if fst (insert db key data fs) then 1 else 0)
                 - (if replaced key fs then 1 else 0)
         | OpRemove key => acc - (if fst (remove db key fs) then 1 else 0)
         | OpClear => 0
         | _ => acc
         end)%Z
  end.
End StoreView.

(** ** Concrete stores for the examples *)

Definition db0 : RecordDB := {| dbPath := "/db" |}.
Definition no_files : FS := {| files := ∅; calls := [] |}.
Definition key_a : list byte := ["a"%byte].
Definition key_b : list byte := ["b"%byte].
Definition key_c : list byte := ["c"%byte].

(** A store of [uint8_t] values after [insert("a", 1)], and after
    [insert("a", 1)], [insert("b", 2)]. *)
Definition store_a : FS :=
  run (H := payload_u8) db0 [OpInsert (Some key_a) [Byte.x01]] no_files.
Definition store_ab : FS :=
  run (H := payload_u8) db0
    [OpInsert (Some key_a) [Byte.x01]; OpInsert (Some key_b) [Byte.x02]] no_files.

(** The database file of [store_ab], and its first record. *)
Definition content_ab : list byte := default [] (files store_ab !! dbPath db0).
Definition record_a : list byte := make_record (H := payload_u8) key_a [Byte.x01].

(** More stores for the examples: a key of 31 characters; a file with two
    live records under one key; [store_ab] with the payload of its second
    record damaged; [store_ab] beside an older file under the sidecar path;
    [store_ab] with two stray bytes after its last record. *)
Definition key_31 : list byte := replicate 31 "k"%byte.

Definition store_dup : FS :=
  {| files := {[ dbPath db0 :=
                   make_record (H := payload_u8) key_a [Byte.x01]
                   ++ make_record (H := payload_u8) key_a [Byte.x02] ]};
     calls := [] |}.

Definition store_ab_dead : FS := corrupt db0 66 Byte.x09 store_ab.

Definition store_ab_sidecar : FS :=
  {| files := <[temp_db := [Byte.x01]]> (files store_ab); calls := calls store_ab |}.

Definition store_ab_stray : FS :=
  {| files := <[dbPath db0 := content_ab ++ [Byte.x07; Byte.x07]]> (files store_ab);
     calls := calls store_ab |}.

(** * Theorems *)

(** ** Bytes *)

Lemma u8_mod z : u8 z = (z mod 256)%Z.
Proof. unfold u8. change 255%Z with (Z.ones 8). by rewrite Z.land_ones. Qed.

Lemma u8_range z : (0 ≤ u8 z < 256)%Z.
Proof. rewrite u8_mod. apply Z.mod_pos_bound. lia. Qed.

Lemma u8_small z : (0 ≤ z < 256)%Z → u8 z = z.
Proof. intros. rewrite u8_mod. by apply Z.mod_small. Qed.

Lemma byte_val_range b : (0 ≤ byte_val b < 256)%Z.
Proof. unfold byte_val. pose proof (Byte.to_N_bounded b). lia. Qed.

Lemma byte_of_val b : byte_of (byte_val b) = b.
Proof.
  unfold byte_of. rewrite u8_small by apply byte_val_range.
  unfold byte_val. by rewrite N2Z.id, Byte.of_to_N.
Qed.

Lemma byte_val_of z : (0 ≤ z < 256)%Z → byte_val (byte_of z) = z.
Proof.
  intros Hz. unfold byte_of, byte_val. rewrite u8_small by done.
  destruct (Byte.of_N (Z.to_N z)) as [b|] eqn:E.
  - apply Byte.to_of_N in E. simpl. lia.
  - apply Byte.of_N_None_iff in E. lia.
Qed.

Lemma byte_val_inj b1 b2 : byte_val b1 = byte_val b2 → b1 = b2.
Proof. intros E. by rewrite <- (byte_of_val b1), <- (byte_of_val b2), E. Qed.

Lemma byte_val_zero b : byte_val b = 0%Z ↔ b = Byte.x00.
Proof.
  split; [|by intros ->].
  intros E. apply byte_val_inj. by rewrite E.
Qed.

(** Every 8-bit value, for the checks done by evaluation. *)
Lemma all_u8_complete z : (0 ≤ z < 256)%Z → z ∈ all_u8.
Proof.
  intros Hz. unfold all_u8. apply list_elem_of_fmap.
  exists (Z.to_nat z). split; [lia|]. apply elem_of_seq. lia.
Qed.

(** ** The CRC-8 of the source *)

Lemma crc_shift_range c : (0 ≤ crc_shift c < 256)%Z.
Proof. unfold crc_shift. case_match; apply u8_range. Qed.

Lemma for_all_u8_pairs (Q : Z → Z → Prop) `{∀ a b, Decision (Q a b)} :
  bool_decide (Forall (λ a, Forall (Q a) all_u8) all_u8) = true →
  ∀ a b, (0 ≤ a < 256)%Z → (0 ≤ b < 256)%Z → Q a b.
Proof.
  intros Hall a b Ha Hb. apply bool_decide_eq_true_1 in Hall.
  rewrite Forall_forall in Hall. specialize (Hall a (all_u8_complete a Ha)).
  rewrite Forall_forall in Hall. by apply Hall, all_u8_complete.
Qed.

Lemma crc_shift_inj c c' :
  (0 ≤ c < 256)%Z → (0 ≤ c' < 256)%Z → crc_shift c = crc_shift c' → c = c'.
Proof.
  apply (for_all_u8_pairs (λ a b, crc_shift a = crc_shift b → a = b)).
  by vm_compute.
Qed.

Lemma crc_shifts_range n c : (0 ≤ c < 256)%Z → (0 ≤ Nat.iter n crc_shift c < 256)%Z.
Proof. intros Hc. destruct n; [done|]. simpl. apply crc_shift_range. Qed.

Lemma crc_shifts_inj n c c' :
  (0 ≤ c < 256)%Z → (0 ≤ c' < 256)%Z →
  Nat.iter n crc_shift c = Nat.iter n crc_shift c' → c = c'.
Proof.
  intros Hc Hc'. induction n as [|n IH]; [done|]. simpl. intros E.
  apply IH. by apply crc_shift_inj; [apply crc_shifts_range..|].
Qed.

Lemma xor_u8_small a b :
  (0 ≤ a < 256)%Z → (0 ≤ b < 256)%Z → u8 (Z.lxor a b) = Z.lxor a b.
Proof.
  apply (for_all_u8_pairs (λ a b, u8 (Z.lxor a b) = Z.lxor a b)
           (H := λ a b, Z.eq_dec _ _)).
  by vm_compute.
Qed.

Lemma xor_cancel_r a b c : Z.lxor a c = Z.lxor b c → a = b.
Proof.
  intros E.
  rewrite <- (Z.lxor_0_r a), <- (Z.lxor_0_r b), <- (Z.lxor_nilpotent c).
  by rewrite <- !Z.lxor_assoc, E.
Qed.

Lemma xor_cancel_l a b c : Z.lxor c a = Z.lxor c b → a = b.
Proof. rewrite !(Z.lxor_comm c). apply xor_cancel_r. Qed.

Lemma crc_byte_range c b : (0 ≤ crc_byte c b < 256)%Z.
Proof. apply crc_shifts_range, u8_range. Qed.

Lemma crc_byte_inj_state c c' b :
  (0 ≤ c < 256)%Z → (0 ≤ c' < 256)%Z → crc_byte c b = crc_byte c' b → c = c'.
Proof.
  intros Hc Hc' E. pose proof (byte_val_range b).
  apply crc_shifts_inj in E; [|apply u8_range..].
  rewrite !xor_u8_small in E by done. by apply xor_cancel_r in E.
Qed.

Lemma crc_byte_inj_byte c b b' :
  (0 ≤ c < 256)%Z → crc_byte c b = crc_byte c b' → b = b'.
Proof.
  intros Hc E. pose proof (byte_val_range b). pose proof (byte_val_range b').
  apply crc_shifts_inj in E; [|apply u8_range..].
  rewrite !xor_u8_small in E by done. by apply xor_cancel_l, byte_val_inj in E.
Qed.

Lemma crc_fold_range p c : (0 ≤ c < 256)%Z → (0 ≤ fold_left crc_byte p c < 256)%Z.
Proof.
  revert c. induction p as [|b p IH]; intros c Hc; [done|].
  simpl. apply IH, crc_byte_range.
Qed.

Lemma crc_fold_inj p c c' :
  (0 ≤ c < 256)%Z → (0 ≤ c' < 256)%Z →
  fold_left crc_byte p c = fold_left crc_byte p c' → c = c'.
Proof.
  revert c c'. induction p as [|b p IH]; intros c c' Hc Hc' E; [done|].
  simpl in E. apply IH in E; [|apply crc_byte_range..].
  by apply crc_byte_inj_state in E.
Qed.

Lemma crc8_range p : (0 ≤ crc8 p < 256)%Z.
Proof. by apply crc_fold_range. Qed.

(** A run of bytes that differs from another in exactly one place has a
    different CRC-8: a corrupted byte never goes unnoticed. *)
Lemma crc8_one_byte pre b b' post :
  b ≠ b' → crc8 (pre ++ b :: post) ≠ crc8 (pre ++ b' :: post).
Proof.
  intros Hne E. unfold crc8 in E. rewrite !fold_left_app in E. simpl in E.
  assert (Hr : (0 ≤ fold_left crc_byte pre 0 < 256)%Z) by by apply crc_fold_range.
  apply crc_fold_inj in E; [|apply crc_byte_range..].
  by apply crc_byte_inj_byte in E.
Qed.

(** ** The source's CRC-8 is the specification's *)

Lemma crc_byte_lfsr c b :
  (0 ≤ c < 256)%Z → crc_byte c b = fold_left lfsr_step (bits_msb_first b) c.
Proof.
  intros Hc. rewrite <- (byte_of_val b). pose proof (byte_val_range b) as Hb.
  revert Hb. generalize (byte_val b). intros v Hv. revert c v Hc Hv.
  apply (for_all_u8_pairs
    (λ c v, crc_byte c (byte_of v) = fold_left lfsr_step (bits_msb_first (byte_of v)) c)
    (H := λ c v, Z.eq_dec _ _)).
  by vm_compute.
Qed.

Lemma crc_fold_lfsr p c :
  (0 ≤ c < 256)%Z →
  fold_left crc_byte p c = fold_left lfsr_step (concat (map bits_msb_first p)) c.
Proof.
  revert c. induction p as [|b p IH]; intros c Hc; [done|].
  change (concat (map bits_msb_first (b :: p)))
    with (bits_msb_first b ++ concat (map bits_msb_first p)).
  change (fold_left crc_byte (b :: p) c) with (fold_left crc_byte p (crc_byte c b)).
  rewrite fold_left_app, <- crc_byte_lfsr by done.
  apply IH, crc_byte_range.
Qed.

Lemma crc8_is_reference p : crc8 p = crc8_reference p.
Proof. by apply crc_fold_lfsr. Qed.

(** ** C strings *)

Lemma strlen_le s : strlen s ≤ length s.
Proof. induction s as [|c s IH]; simpl; [lia|]. case_decide; lia. Qed.

Lemma cstr_nil : cstr [] = [].
Proof. done. Qed.

Lemma cstr_cons c s :
  cstr (c :: s) = if decide (c = Byte.x00) then [] else c :: cstr s.
Proof. unfold cstr. simpl. by case_decide. Qed.

Lemma cstr_length s : length (cstr s) = strlen s.
Proof. unfold cstr. rewrite length_take. pose proof (strlen_le s). lia. Qed.

Lemma cstr_idemp s : cstr (cstr s) = cstr s.
Proof.
  induction s as [|c s IH]; [done|]. rewrite cstr_cons.
  case_decide as Hc; [done|]. rewrite cstr_cons, decide_False by done. by f_equal.
Qed.

Lemma cstr_zeros_after s n : cstr (cstr s ++ replicate n Byte.x00) = cstr s.
Proof.
  induction s as [|c s IH].
  - rewrite cstr_nil. simpl. destruct n; [done|]. simpl. by rewrite cstr_cons, decide_True.
  - rewrite cstr_cons. case_decide as Hc.
    + simpl. destruct n; [done|]. simpl. by rewrite cstr_cons, decide_True.
    + simpl. rewrite cstr_cons, decide_False by done. by f_equal.
Qed.

(** [strcmp] answers 0 exactly when the two strings have the same
    characters. *)
Lemma strcmp_zero s1 s2 : strcmp s1 s2 = 0%Z ↔ cstr s1 = cstr s2.
Proof.
  revert s2. induction s1 as [|c1 t1 IH]; intros [|c2 t2]; simpl;
    rewrite ?cstr_cons, ?cstr_nil.
  - done.
  - pose proof (byte_val_zero c2) as Hz. case_decide as Hc.
    + by subst.
    + split; [|done]. intros E. destruct Hc. apply Hz. lia.
  - pose proof (byte_val_zero c1) as Hz. case_decide as Hc.
    + by subst.
    + split; [|done]. intros E. destruct Hc. by apply Hz.
  - case_decide as E12.
    + subst c2. case_decide as Hc; [done|]. rewrite IH.
      split; [by intros ->|by intros [= ->]].
    + split.
      * intros E. destruct E12. apply byte_val_inj. lia.
      * intros E. destruct E12. repeat case_decide; subst; try done. by injection E.
Qed.

Lemma strcmp_refl s : strcmp s s = 0%Z.
Proof. by apply strcmp_zero. Qed.

(** ** The record [insert] writes *)

(** Arithmetic on offsets and sizes, the layout constants unfolded. *)
Ltac layout_lia :=
  unfold sizeofRecord, crc_off, data_off, key_size in *; simpl in *; lia.

Lemma key_field_length k : strlen k < key_size → length (key_field k) = key_size.
Proof.
  intros Hk. unfold key_field. rewrite length_app, cstr_length, length_replicate. lia.
Qed.

Lemma cstr_key_field k : cstr (key_field k) = cstr k.
Proof. apply cstr_zeros_after. Qed.

Lemma strlcpy_zeros k n :
  strlen k < key_size → key_size ≤ n →
  strlcpy (replicate n Byte.x00) k key_size
  = key_field k ++ replicate (n - key_size) Byte.x00.
Proof.
  intros Hk Hn. unfold strlcpy, key_field, key_size in *.
  rewrite Nat.min_l by lia. fold (cstr k).
  replace n with ((strlen k + 1) + (n - strlen k - 1)) at 1 by lia.
  rewrite replicate_add, list_inserts_0_r
    by (rewrite length_app, cstr_length, length_replicate; simpl; lia).
  rewrite <- !(assoc_L (++)). f_equal.
  change [Byte.x00] with (replicate 1 Byte.x00).
  rewrite <- !replicate_add. f_equal. lia.
Qed.

Section RecordImage.
Context `{Payload}.

Lemma sizeofRecord_pos : 0 < sizeofRecord.
Proof. unfold sizeofRecord. lia. Qed.

Lemma make_record_image k data :
  strlen k < key_size → length data = sizeT →
  make_record k data
  = key_field k ++ data
      ++ byte_of (crc8 (take (sizeofRecord - 1) (unsealed k data)))
      :: replicate tail_pad Byte.x00.
Proof.
  intros Hk Hd. unfold make_record, computeCRC.
  rewrite strlcpy_zeros by (done || layout_lia).
  assert (E : list_inserts data_off data
                (key_field k ++ replicate (sizeofRecord - key_size) Byte.x00)
              = unsealed k data).
  { unfold unsealed, data_off.
    rewrite <- (key_field_length k Hk) at 1.
    rewrite <- (Nat.add_0_r (length (key_field k))), list_inserts_app_r.
    f_equal. replace (sizeofRecord - key_size) with (sizeT + (1 + tail_pad))
      by layout_lia.
    rewrite replicate_add. apply list_inserts_0_r.
    by rewrite length_replicate. }
  rewrite E. unfold crc_off. unfold unsealed at 2.
  pose proof (key_field_length k Hk) as Hkf.
  rewrite insert_app_r_alt by lia. f_equal.
  rewrite insert_app_r_alt by lia. f_equal.
  by replace (key_size + sizeT - length (key_field k) - length data) with 0 by lia.
Qed.

Lemma make_record_length k data : length (make_record k data) = sizeofRecord.
Proof.
  unfold make_record, strlcpy, key_size.
  by rewrite length_insert, !length_inserts, length_replicate.
Qed.

Lemma make_record_key k data :
  strlen k < key_size → length data = sizeT →
  rec_key (make_record k data) = key_field k.
Proof.
  intros Hk Hd. rewrite make_record_image by done. unfold rec_key.
  by rewrite take_app_length' by by rewrite key_field_length.
Qed.

Lemma make_record_data k data :
  strlen k < key_size → length data = sizeT →
  rec_data (make_record k data) = data.
Proof.
  intros Hk Hd. rewrite make_record_image by done. unfold rec_data, data_off.
  rewrite drop_app_length' by by rewrite key_field_length.
  by rewrite take_app_length'.
Qed.

Lemma make_record_has_key k k' data :
  strlen k < key_size → length data = sizeT →
  has_key k' (make_record k data) ↔ cstr k = cstr k'.
Proof.
  intros Hk Hd. unfold has_key.
  by rewrite make_record_key, strcmp_zero, cstr_key_field.
Qed.

(** With no padding after the checksum, [computeCRC] covers the key and
    the payload and nothing else, and the record just built is live. *)
Lemma make_record_live k data :
  tail_pad = 0 → strlen k < key_size → length data = sizeT →
  live (make_record k data).
Proof.
  intros Hpad Hk Hd. unfold live, computeCRC, rec_crc.
  rewrite make_record_image by done. unfold unsealed. rewrite Hpad. simpl.
  assert (Hlen : length (key_field k ++ data) = sizeofRecord - 1).
  { rewrite length_app, key_field_length by done. layout_lia. }
  rewrite !(assoc_L (++)), !take_app_length' by done.
  unfold crc_off. replace (key_size + sizeT) with (length (key_field k ++ data) + 0)
    by (rewrite Hlen; layout_lia).
  rewrite lookup_total_app_r by lia.
  rewrite Nat.add_comm, Nat.add_sub. simpl.
  by rewrite byte_val_of by apply crc8_range.
Qed.
End RecordImage.

(** ** Slots of a file *)

#[local] Arguments Nat.modulo : simpl never.
#[local] Arguments Nat.div : simpl never.
#[local] Arguments sizeofRecord : simpl never.
#[local] Arguments crc_off : simpl never.
#[local] Arguments slots : simpl never.
#[local] Arguments crc_ok : simpl never.
#[local] Arguments computeCRC : simpl never.
#[local] Arguments make_record : simpl never.
#[local] Arguments strcmp : simpl never.
#[local] Arguments rec_key : simpl never.
#[local] Arguments rec_data : simpl never.
#[local] Arguments while_read : simpl never.
#[local] Arguments remove : simpl never.
#[local] Arguments insert : simpl never.
#[local] Arguments query : simpl never.
#[local] Arguments exists_ : simpl never.
#[local] Arguments count : simpl never.
#[local] Arguments selectAll : simpl never.
#[local] Arguments clear : simpl never.
#[local] Arguments live_records : simpl never.
#[local] Arguments db_slots : simpl never.
#[local] Arguments replaced : simpl never.

(** Running the monad: binds and primitive calls unfolded. *)
Ltac io_run :=
  simpl in *;
  unfold mbind, io_bind, mret, io_ret, record_call, set_file, get_file,
    file_read, file_write, file_close, fs_open, fs_remove, fs_rename,
    delete_file, move_file in *;
  simpl in *.

Section SlotFacts.
Context `{Payload}.

Lemma slots_short content : length content < sizeofRecord → slots content = [].
Proof. intros Hlt. unfold slots. by rewrite Nat.div_small. Qed.

Lemma slots_step content :
  sizeofRecord ≤ length content →
  slots content = take sizeofRecord content :: slots (drop sizeofRecord content).
Proof.
  intros Hle. unfold slots. pose proof sizeofRecord_pos.
  replace (length content) with ((length content - sizeofRecord) + 1 * sizeofRecord)
    at 1 by lia.
  rewrite Nat.div_add, Nat.add_1_r by lia. simpl.
  by rewrite length_drop.
Qed.

Lemma slots_app rec content :
  length rec = sizeofRecord → slots (rec ++ content) = rec :: slots content.
Proof.
  intros Hr. rewrite slots_step by (rewrite length_app; lia).
  by rewrite take_app_length', drop_app_length'.
Qed.

Lemma slots_nil : slots [] = [].
Proof. apply slots_short. simpl. apply sizeofRecord_pos. Qed.

Lemma slots_concat rs content :
  Forall (λ rec, length rec = sizeofRecord) rs →
  slots (concat rs ++ content) = rs ++ slots content.
Proof.
  induction 1 as [|rec rs Hr _ IH]; [done|].
  simpl. by rewrite <- (assoc_L (++)), slots_app, IH.
Qed.

Lemma slots_concat_all rs :
  Forall (λ rec, length rec = sizeofRecord) rs → slots (concat rs) = rs.
Proof.
  intros Hrs. rewrite <- (app_nil_r (concat rs)), slots_concat by done.
  by rewrite slots_nil, app_nil_r.
Qed.

Lemma slots_sized content :
  Forall (λ rec, length rec = sizeofRecord) (slots content).
Proof.
  remember (length content) as n eqn:Hn. revert content Hn.
  induction n as [n IH] using lt_wf_ind. intros content ->.
  destruct (decide (length content < sizeofRecord)) as [Hlt|Hge].
  - by rewrite slots_short.
  - pose proof sizeofRecord_pos. rewrite slots_step by lia. constructor.
    + rewrite length_take. lia.
    + eapply IH; [|done]. rewrite length_drop. lia.
Qed.

(** A file of whole slots is the concatenation of its slots. *)
Lemma aligned_concat content : aligned content → concat (slots content) = content.
Proof.
  unfold aligned. remember (length content) as n eqn:Hn. revert content Hn.
  induction n as [n IH] using lt_wf_ind. intros content -> Hmod.
  pose proof sizeofRecord_pos.
  destruct (decide (length content < sizeofRecord)) as [Hlt|Hge].
  - rewrite Nat.mod_small in Hmod by done.
    rewrite slots_short by done. by destruct content.
  - rewrite slots_step by lia. simpl.
    rewrite (IH (length (drop sizeofRecord content))); [apply take_drop| |done|].
    + rewrite length_drop. lia.
    + rewrite length_drop.
      replace (length content) with ((length content - sizeofRecord) + 1 * sizeofRecord)
        in Hmod by lia.
      by rewrite Nat.Div0.mod_add in Hmod.
Qed.

Lemma aligned_nil : aligned [].
Proof. unfold aligned. cbn [length]. apply Nat.Div0.mod_0_l. Qed.

Lemma concat_aligned rs :
  Forall (λ rec, length rec = sizeofRecord) rs → aligned (concat rs).
Proof.
  unfold aligned. induction 1 as [|rec rs Hr _ IH]; cbn [concat length].
  - apply Nat.Div0.mod_0_l.
  - rewrite length_app, Hr, Nat.add_comm.
    replace sizeofRecord with (1 * sizeofRecord) at 1 by lia.
    by rewrite Nat.Div0.mod_add.
Qed.

Lemma aligned_app c1 c2 : aligned c1 → aligned c2 → aligned (c1 ++ c2).
Proof.
  unfold aligned. intros H1 H2. rewrite length_app.
  by rewrite Nat.Div0.add_mod, H1, H2, Nat.Div0.mod_0_l.
Qed.

Lemma slots_aligned_app c1 c2 :
  aligned c1 → slots (c1 ++ c2) = slots c1 ++ slots c2.
Proof.
  intros H1. rewrite <- (aligned_concat c1 H1) at 1.
  apply slots_concat, slots_sized.
Qed.

(** *** The read loop walks the slots

    With more fuel than the file has bytes the loop never runs out: it
    is the walk over the slots, ended by the short read. *)
Lemma while_read_round {S : Type} fuel (body : list byte → S → io (ctl S)) f s :
  while_read (Datatypes.S fuel) body f s
  = ('(rec, f') ← file_read f sizeofRecord;
     if length rec =? sizeofRecord then
       c ← body rec s;
       match c with
       | Continue s' => while_read fuel body f' s'
       | Return s' => mret s'
       end
     else mret s).
Proof. done. Qed.

Lemma while_read_slots {S : Type} fuel (body : list byte → S → io (ctl S)) f s fs :
  length (f_rest f) < fuel →
  while_read fuel body f s fs
  = over_slots (f_path f) body (slots (f_rest f))
      (length (f_rest f) `mod` sizeofRecord) s fs.
Proof.
  revert f s fs. induction fuel as [|fuel IH]; intros [path rest] s fs Hfuel;
    simpl in *; [lia|].
  rewrite while_read_round.
  pose proof sizeofRecord_pos.
  destruct (decide (length rest < sizeofRecord)) as [Hlt|Hge].
  - rewrite slots_short, Nat.mod_small by done. io_run.
    rewrite take_ge by lia.
    destruct (Nat.eqb_spec (length rest) sizeofRecord); [lia|done].
  - rewrite slots_step by lia. io_run.
    rewrite length_take, Nat.min_l by lia. rewrite Nat.eqb_refl.
    destruct (body _ s _) as [[s'|s'] fs']; [|done].
    rewrite IH by (simpl; rewrite length_drop; lia). simpl.
    rewrite length_drop. f_equal.
    replace (length rest) with ((length rest - sizeofRecord) + 1 * sizeofRecord)
      at 2 by lia.
    by rewrite Nat.Div0.mod_add.
Qed.
End SlotFacts.

(** ** The scans, slot by slot *)

Lemma Z_eqb_decide (a b : Z) : (a =? b)%Z = bool_decide (a = b).
Proof.
  destruct (Z.eqb_spec a b);
    [by rewrite bool_decide_eq_true_2|by rewrite bool_decide_eq_false_2].
Qed.

Section Scans.
Context `{Payload}.

Ltac by_walk IH :=
  let E1 := fresh in let E2 := fresh in
  destruct IH as [E1 E2]; split; [etrans; [exact E1|]|exact E2].

Lemma crc_ok_live rec : crc_ok rec = bool_decide (live rec).
Proof. apply Z_eqb_decide. Qed.

Lemma key_test k rec : (strcmp (rec_key rec) k =? 0)%Z = bool_decide (has_key k rec).
Proof. apply Z_eqb_decide. Qed.

Lemma has_key_cstr k rec : has_key k rec ↔ key_of rec = cstr k.
Proof. apply strcmp_zero. Qed.

Lemma query_walk path k rs n out fs :
  fst (over_slots path (query_body k) rs n out fs)
  = from_option (Some ∘ rec_data) out (find_live k (filter live rs))
  ∧ files (snd (over_slots path (query_body k) rs n out fs)) = files fs.
Proof.
  revert fs. induction rs as [|rec rs IH]; intros fs; [done|].
  unfold find_live in *. simpl. unfold query_body in *.
  rewrite crc_ok_live, key_test.
  destruct (decide (live rec)) as [Hl|Hl].
  - rewrite (filter_cons_True live) by done.
    rewrite bool_decide_eq_true_2 by done. simpl.
    destruct (decide (has_key k rec)) as [Hk|Hk].
    + rewrite filter_cons_True by done. by rewrite bool_decide_eq_true_2.
    + rewrite filter_cons_False by done. rewrite bool_decide_eq_false_2 by done.
      io_run. by by_walk (IH (after_read path fs)).
  - rewrite (filter_cons_False live) by done.
    rewrite bool_decide_eq_false_2 by done. io_run.
    by by_walk (IH (after_read path fs)).
Qed.

Lemma count_walk path rs n0 n fs :
  fst (over_slots path count_body rs n0 n fs) = n + length (filter live rs)
  ∧ files (snd (over_slots path count_body rs n0 n fs)) = files fs.
Proof.
  revert n fs. induction rs as [|rec rs IH]; intros n fs; [by simpl; auto with lia|].
  simpl. unfold count_body in *. rewrite crc_ok_live.
  destruct (decide (live rec)) as [Hl|Hl].
  - rewrite filter_cons_True, bool_decide_eq_true_2 by done. io_run.
    by_walk (IH (n + 1) (after_read path fs)). simpl. lia.
  - rewrite filter_cons_False, bool_decide_eq_false_2 by done. io_run.
    by by_walk (IH n (after_read path fs)).
Qed.

Lemma select_walk {V : Type} (cb : list byte → list byte → V → V) path rs n v fs :
  fst (over_slots path (select_body cb) rs n v fs)
  = fold_left (λ v rec, cb (rec_key rec) (rec_data rec) v) (filter live rs) v
  ∧ files (snd (over_slots path (select_body cb) rs n v fs)) = files fs.
Proof.
  revert v fs. induction rs as [|rec rs IH]; intros v fs; [done|].
  simpl. unfold select_body in *. rewrite crc_ok_live.
  destruct (decide (live rec)) as [Hl|Hl].
  - rewrite filter_cons_True, bool_decide_eq_true_2 by done. io_run.
    by by_walk (IH (cb (rec_key rec) (rec_data rec) v) (after_read path fs)).
  - rewrite filter_cons_False, bool_decide_eq_false_2 by done. io_run.
    by by_walk (IH v (after_read path fs)).
Qed.

(** [remove]'s scan: the live records of other keys go to the sidecar, in
    order; a live record of key [k] sets [found]. *)
Lemma remove_walk path dst k rs n found fs acc :
  files fs !! f_path dst = Some acc →
  fst (over_slots path (remove_body dst k) rs n found fs)
  = found || bool_decide (Exists (has_key k) (filter live rs))
  ∧ files (snd (over_slots path (remove_body dst k) rs n found fs))
    = <[f_path dst := acc ++ concat (filter (λ rec, ¬ has_key k rec) (filter live rs))]>
        (files fs).
Proof.
  revert found fs acc. induction rs as [|rec rs IH]; intros found fs acc Hacc.
  { simpl. by rewrite orb_false_r, app_nil_r, insert_id. }
  simpl. unfold remove_body in *. rewrite crc_ok_live, key_test.
  destruct (decide (live rec)) as [Hl|Hl].
  - rewrite (filter_cons_True live), bool_decide_eq_true_2 by done. simpl.
    destruct (decide (has_key k rec)) as [Hk|Hk].
    + rewrite bool_decide_eq_true_2 by done. simpl.
      rewrite filter_cons_False by tauto. io_run.
      by_walk (IH true (after_read path fs) acc Hacc).
      rewrite (bool_decide_eq_true_2 (Exists _ (_ :: _))) by by left.
      by rewrite orb_true_r.
    + rewrite bool_decide_eq_false_2 by done. simpl.
      rewrite filter_cons_True by done. io_run. rewrite Hacc. simpl.
      match goal with
      | |- context [over_slots _ _ _ _ _ ?fs2] =>
          destruct (IH found fs2 (acc ++ rec)) as [E1 E2];
            [apply lookup_insert_eq|]
      end.
      split; [etrans; [exact E1|]|etrans; [exact E2|]].
      * f_equal. apply bool_decide_ext. rewrite Exists_cons. tauto.
      * simpl. by rewrite insert_insert_eq, <- (assoc_L (++)).
  - rewrite (filter_cons_False live), bool_decide_eq_false_2 by done. io_run.
    by by_walk (IH found (after_read path fs) acc Hacc).
Qed.
End Scans.

(** ** What each operation returns and leaves behind *)

Section Store.
Context `{Payload}.
Variable db : RecordDB.

Lemma live_records_file fs content :
  files fs !! dbPath db = Some content →
  live_records db fs = filter live (slots content).
Proof. intros E. unfold live_records, db_slots. by rewrite E. Qed.

Lemma live_records_missing fs :
  files fs !! dbPath db = None → live_records db fs = [].
Proof. intros E. unfold live_records, db_slots. by rewrite E. Qed.

(** The live records depend on the database file only. *)
Lemma live_records_same fs fs' :
  files fs' !! dbPath db = files fs !! dbPath db →
  live_records db fs' = live_records db fs.
Proof. intros E. unfold live_records, db_slots. by rewrite E. Qed.

(** *** query, exists, count, selectAll: read-only scans *)

Lemma query_null fs : query db None fs = (None, fs).
Proof. done. Qed.

Lemma query_spec k fs :
  fst (query db (Some k) fs) = rec_data <$> find_live k (live_records db fs)
  ∧ files (snd (query db (Some k) fs)) = files fs.
Proof.
  unfold query. io_run.
  destruct (files fs !! dbPath db) as [content|] eqn:E; simpl.
  - rewrite (live_records_file _ _ E), while_read_slots by (simpl; lia). simpl.
    match goal with
    | |- context [over_slots ?p _ ?rs ?n ?s ?fs1] =>
        destruct (query_walk p k rs n s fs1) as [E1 E2];
        destruct (over_slots p (query_body k) rs n s fs1) as [r fs2]
    end.
    simpl in *. split; [|done]. rewrite E1. by destruct (find_live _ _).
  - by rewrite (live_records_missing _ E).
Qed.

Lemma query_files key fs : files (snd (query db key fs)) = files fs.
Proof. destruct key; [apply query_spec|done]. Qed.

Lemma exists_spec k fs :
  fst (exists_ db (Some k) fs)
  = bool_decide (Exists (has_key k) (live_records db fs))
  ∧ files (snd (exists_ db (Some k) fs)) = files fs.
Proof.
  unfold exists_. io_run. destruct (query_spec k fs) as [E1 E2].
  destruct (query db (Some k) fs) as [r fs']. simpl in *. split; [|done].
  subst r. apply bool_decide_ext. rewrite fmap_is_Some, Exists_exists.
  unfold find_live. split.
  - intros [rec Hrec]. apply head_Some_elem_of, list_elem_of_filter in Hrec.
    exists rec. tauto.
  - intros (rec & Hin & Hk). apply head_is_Some.
    intros Hnil. assert (Hf : rec ∈ filter (has_key k) (live_records db fs))
      by by apply list_elem_of_filter.
    rewrite Hnil in Hf. by eapply not_elem_of_nil.
Qed.

Lemma count_spec fs :
  fst (count db fs) = length (live_records db fs)
  ∧ files (snd (count db fs)) = files fs.
Proof.
  unfold count. io_run.
  destruct (files fs !! dbPath db) as [content|] eqn:E; simpl.
  - rewrite (live_records_file _ _ E), while_read_slots by (simpl; lia). simpl.
    match goal with
    | |- context [over_slots ?p _ ?rs ?n ?s ?fs1] =>
        destruct (count_walk p rs n s fs1) as [E1 E2];
        destruct (over_slots p count_body rs n s fs1) as [r fs2]
    end.
    simpl in *. by subst.
  - by rewrite (live_records_missing _ E).
Qed.

Lemma selectAll_spec {V : Type} (cb : list byte → list byte → V → V) v fs :
  fst (selectAll db cb v fs)
  = fold_left (λ v rec, cb (rec_key rec) (rec_data rec) v) (live_records db fs) v
  ∧ files (snd (selectAll db cb v fs)) = files fs.
Proof.
  unfold selectAll. io_run.
  destruct (files fs !! dbPath db) as [content|] eqn:E; simpl.
  - rewrite (live_records_file _ _ E), while_read_slots by (simpl; lia). simpl.
    match goal with
    | |- context [over_slots ?p _ ?rs ?n ?s ?fs1] =>
        destruct (select_walk cb p rs n s fs1) as [E1 E2];
        destruct (over_slots p (select_body cb) rs n s fs1) as [r fs2]
    end.
    simpl in *. by subst.
  - by rewrite (live_records_missing _ E).
Qed.

(** *** remove *)

Lemma remove_null fs : remove db None fs = (false, fs).
Proof. done. Qed.

Lemma remove_missing k fs :
  files fs !! dbPath db = None →
  fst (remove db (Some k) fs) = false
  ∧ files (snd (remove db (Some k) fs)) = files fs.
Proof. intros E. unfold remove. io_run. by rewrite E. Qed.

Hypothesis sidecar_apart : dbPath db ≠ temp_db.

(** With a database file present: the answer is whether a live record
    has the key; on [true] the file becomes the live records of the other
    keys, on [false] it is left alone; the sidecar is gone afterwards. *)
Lemma remove_present k fs content :
  files fs !! dbPath db = Some content →
  let rs := filter live (slots content) in
  let found := bool_decide (Exists (has_key k) rs) in
  fst (remove db (Some k) fs) = found
  ∧ files (snd (remove db (Some k) fs))
    = if found
      then <[dbPath db := concat (filter (λ rec, ¬ has_key k rec) rs)]>
             (delete temp_db (files fs))
      else delete temp_db (files fs).
Proof.
  intros E rs found. unfold remove. io_run. rewrite E. simpl.
  rewrite while_read_slots by (simpl; lia). simpl.
  match goal with
  | |- context [over_slots ?p _ _ ?n ?s ?fs1] =>
      destruct (remove_walk p {| f_path := temp_db; f_rest := [] |} k
                  (slots content) n s fs1 [])
        as [E1 E2]; [apply lookup_insert_eq|];
      destruct (over_slots p
                  (remove_body {| f_path := temp_db; f_rest := [] |} k)
                  (slots content) n s fs1) as [r fs2]
  end.
  simpl in *. subst r. fold rs found. fold rs in E2.
  destruct found; io_run; rewrite E2.
  - rewrite lookup_delete_ne, lookup_insert_eq by done. simpl.
    split; [done|]. apply map_eq. intros p.
    destruct (decide (p = dbPath db)), (decide (p = temp_db)); by simplify_map_eq.
  - split; [done|]. by rewrite insert_insert_eq, delete_insert_eq.
Qed.

Lemma remove_result k fs :
  fst (remove db (Some k) fs)
  = bool_decide (Exists (has_key k) (live_records db fs)).
Proof.
  destruct (files fs !! dbPath db) as [content|] eqn:E.
  - rewrite (live_records_file _ _ E). by apply remove_present.
  - rewrite (live_records_missing _ E). by apply remove_missing.
Qed.

(** What [remove] leaves under the database path. *)
Lemma remove_db_file k fs :
  files (snd (remove db (Some k) fs)) !! dbPath db
  = if fst (remove db (Some k) fs)
    then Some (concat (filter (λ rec, ¬ has_key k rec) (live_records db fs)))
    else files fs !! dbPath db.
Proof.
  destruct (files fs !! dbPath db) as [content|] eqn:E.
  - rewrite (live_records_file _ _ E).
    destruct (remove_present k fs content E) as [-> ->].
    case_bool_decide; simplify_map_eq; done.
  - destruct (remove_missing k fs E) as [-> ->]. done.
Qed.

(** [remove] touches the database file and the sidecar, nothing else. *)
Lemma remove_other_files k fs p :
  p ≠ dbPath db → p ≠ temp_db →
  files (snd (remove db (Some k) fs)) !! p = files fs !! p.
Proof.
  intros Hp1 Hp2. destruct (files fs !! dbPath db) as [content|] eqn:E.
  - destruct (remove_present k fs content E) as [_ ->].
    case_bool_decide; by simplify_map_eq.
  - by destruct (remove_missing k fs E) as [_ ->].
Qed.

Lemma filter_all {A} (P : A → Prop) `{∀ x, Decision (P x)} (l : list A) :
  Forall P l → filter P l = l.
Proof.
  induction 1 as [|x l Hx _ IH]; [done|]. by rewrite filter_cons_True, IH.
Qed.

Lemma filter_none_left {A} (P : A → Prop) `{∀ x, Decision (P x)} (l : list A) :
  filter P (filter (λ x, ¬ P x) l) = [].
Proof.
  induction l as [|x l IH]; [done|]. destruct (decide (P x)).
  - by rewrite (filter_cons_False (λ x, ¬ P x)) by tauto.
  - rewrite (filter_cons_True (λ x, ¬ P x)) by done. by rewrite filter_cons_False.
Qed.

Lemma filter_sized (P : list byte → Prop) `{∀ x, Decision (P x)} content :
  Forall (λ rec, length rec = sizeofRecord) (filter P (slots content)).
Proof.
  apply Forall_forall. intros rec [_ Hin]%list_elem_of_filter.
  pose proof (slots_sized content) as Hs. rewrite Forall_forall in Hs. auto.
Qed.

(** After [remove] the live records are the former ones of other keys, in
    their former order. *)
Lemma remove_live_records k fs :
  live_records db (snd (remove db (Some k) fs))
  = filter (λ rec, ¬ has_key k rec) (live_records db fs).
Proof.
  pose proof (remove_db_file k fs) as Hf. rewrite remove_result in Hf.
  case_bool_decide as Hex.
  - destruct (files fs !! dbPath db) as [content|] eqn:E;
      [|rewrite (live_records_missing _ E) in Hex; by apply Exists_nil in Hex].
    rewrite (live_records_file _ _ Hf), (live_records_file _ _ E) in *.
    rewrite slots_concat_all.
    + apply filter_all, Forall_forall.
      by intros rec [_ [? _]%list_elem_of_filter]%list_elem_of_filter.
    + apply Forall_forall. intros rec [_ Hin]%list_elem_of_filter. revert rec Hin.
      apply Forall_forall, filter_sized.
  - rewrite (live_records_same _ _ Hf). symmetry. apply filter_all.
    apply Forall_forall. intros rec Hin Hk. apply Hex, Exists_exists. eauto.
Qed.

Lemma remove_aligned k fs :
  db_aligned db fs → db_aligned db (snd (remove db (Some k) fs)).
Proof.
  intros Hal content. rewrite remove_db_file. case_match; [|apply Hal].
  intros [= <-]. apply concat_aligned.
  unfold live_records, db_slots.
  destruct (files fs !! dbPath db) as [c|]; simpl; [|by rewrite filter_nil].
  apply Forall_forall. intros rec [_ Hin]%list_elem_of_filter. revert rec Hin.
  apply Forall_forall, filter_sized.
Qed.

(** *** insert *)

Lemma insert_null data fs : insert db None data fs = (false, fs).
Proof. done. Qed.

Lemma insert_long k data fs :
  key_size ≤ strlen k → insert db (Some k) data fs = (false, fs).
Proof.
  intros Hk. unfold insert.
  by destruct (Nat.leb_spec key_size (strlen k)); [|lia].
Qed.

(** On a key it accepts, [insert] removes, then appends the record it
    has built, and answers [true]. *)
Lemma insert_accepts k data fs :
  strlen k < key_size →
  let fs1 := snd (remove db (Some k) fs) in
  fst (insert db (Some k) data fs) = true
  ∧ files (snd (insert db (Some k) data fs))
    = <[dbPath db := default [] (files fs1 !! dbPath db) ++ make_record k data]>
        (files fs1).
Proof.
  intros Hk fs1. unfold insert.
  destruct (Nat.leb_spec key_size (strlen k)); [lia|].
  io_run. fold fs1. destruct (remove db (Some k) fs) as [b fs1'].
  simpl in *. subst fs1. rewrite lookup_insert_eq. simpl.
  rewrite make_record_length, Nat.eqb_refl. split; [done|].
  by rewrite insert_insert_eq.
Qed.

Lemma insert_db_file k data fs :
  strlen k < key_size →
  files (snd (insert db (Some k) data fs)) !! dbPath db
  = Some (default [] (files (snd (remove db (Some k) fs)) !! dbPath db)
          ++ make_record k data).
Proof.
  intros Hk. destruct (insert_accepts k data fs Hk) as [_ ->].
  apply lookup_insert_eq.
Qed.

Lemma insert_live_records k data fs :
  strlen k < key_size → db_aligned db fs →
  live_records db (snd (insert db (Some k) data fs))
  = filter (λ rec, ¬ has_key k rec) (live_records db fs)
    ++ filter live [make_record k data].
Proof.
  intros Hk Hal. rewrite (live_records_file _ _ (insert_db_file k data fs Hk)).
  rewrite <- remove_live_records.
  pose proof (remove_aligned k fs Hal) as Hal1.
  set (fs1 := snd (remove db (Some k) fs)) in *.
  assert (Hnew : slots (make_record k data) = [make_record k data]).
  { rewrite <- (app_nil_r (make_record k data)) at 1.
    by rewrite slots_app, slots_nil by apply make_record_length. }
  destruct (files fs1 !! dbPath db) as [c|] eqn:E; simpl.
  - rewrite (live_records_file _ _ E).
    rewrite slots_aligned_app, filter_app by by apply Hal1. by rewrite Hnew.
  - rewrite (live_records_missing _ E). simpl. by rewrite Hnew.
Qed.

Lemma insert_aligned k data fs :
  strlen k < key_size → db_aligned db fs →
  db_aligned db (snd (insert db (Some k) data fs)).
Proof.
  intros Hk Hal content. rewrite insert_db_file by done. intros [= <-].
  pose proof (remove_aligned k fs Hal) as Hal1. unfold db_aligned in Hal1.
  apply aligned_app.
  - destruct (files _ !! dbPath db) as [c|]; simpl; [by apply Hal1|apply aligned_nil].
  - unfold aligned. by rewrite make_record_length, Nat.Div0.mod_same.
Qed.

(** *** clear *)

Lemma clear_files fs : files (snd (clear db fs)) = delete (dbPath db) (files fs).
Proof. done. Qed.

Lemma clear_fresh fs : fresh db (snd (clear db fs)).
Proof. unfold fresh. rewrite clear_files. apply lookup_delete_eq. Qed.
End Store.

(** ** The invariant of the store *)

Section Invariant.
Context `{Payload}.
Variable db : RecordDB.
Hypothesis sidecar_apart : dbPath db ≠ temp_db.

Lemma unique_filter (P : list byte → Prop) `{∀ x, Decision (P x)} (l : list (list byte)) :
  NoDup (key_of <$> l) → NoDup (key_of <$> filter P l).
Proof.
  intros Hl. eapply sublist_NoDup; [done|]. apply fmap_sublist, sublist_filter.
Qed.

(** With unique keys, taking a key out takes out one record or none. *)
Lemma length_without_key k (l : list (list byte)) :
  NoDup (key_of <$> l) →
  length (filter (λ rec, ¬ has_key k rec) l)
    + (if bool_decide (Exists (has_key k) l) then 1 else 0)
  = length l.
Proof.
  induction l as [|rec l IH]; [done|]. rewrite fmap_cons, NoDup_cons.
  intros [Hnotin Hnd]. specialize (IH Hnd).
  destruct (decide (has_key k rec)) as [Hk|Hk].
  - rewrite filter_cons_False by tauto.
    rewrite (bool_decide_eq_true_2 (Exists _ (_ :: _))) by by left.
    rewrite bool_decide_eq_false_2 in IH; [simpl; lia|].
    rewrite Exists_exists. intros (rec' & Hin & Hk'). apply Hnotin.
    apply has_key_cstr in Hk, Hk'. rewrite Hk, <- Hk'.
    by apply list_elem_of_fmap_2.
  - rewrite filter_cons_True by done. simpl. rewrite <- IH.
    rewrite (bool_decide_ext (Exists (has_key k) (rec :: l))
               (Exists (has_key k) l)); [lia|].
    rewrite Exists_cons. tauto.
Qed.

Lemma at_most_one_per_key k (l : list (list byte)) :
  NoDup (key_of <$> l) → length (filter (has_key k) l) ≤ 1.
Proof.
  induction l as [|rec l IH]; [simpl; lia|]. rewrite fmap_cons, NoDup_cons.
  intros [Hnotin Hnd]. specialize (IH Hnd).
  destruct (decide (has_key k rec)) as [Hk|Hk].
  - rewrite filter_cons_True by done. simpl.
    destruct (filter (has_key k) l) as [|rec' l'] eqn:Ef; [simpl; lia|].
    assert (Hin : rec' ∈ filter (has_key k) l) by (rewrite Ef; left).
    apply list_elem_of_filter in Hin as [Hk' Hin]. destruct Hnotin.
    apply has_key_cstr in Hk, Hk'. rewrite Hk, <- Hk'.
    by apply list_elem_of_fmap_2.
  - by rewrite filter_cons_False.
Qed.

Lemma store_ok_same fs fs' :
  files fs' = files fs → store_ok db fs → store_ok db fs'.
Proof.
  intros E [Hal Hun]. split.
  - unfold db_aligned. by rewrite E.
  - unfold unique_keys. by rewrite (live_records_same db fs fs') by by rewrite E.
Qed.

Lemma store_ok_fresh fs : fresh db fs → store_ok db fs.
Proof.
  intros Hf. split.
  - intros content. unfold fresh in Hf. by rewrite Hf.
  - unfold unique_keys. rewrite live_records_missing by done. constructor.
Qed.

Lemma remove_ok key fs : store_ok db fs → store_ok db (snd (remove db key fs)).
Proof.
  intros [Hal Hun]. destruct key as [k|]; [|done]. split.
  - by apply remove_aligned.
  - unfold unique_keys. rewrite remove_live_records by done.
    by apply unique_filter.
Qed.

Lemma insert_ok key data fs :
  length data = sizeT → store_ok db fs → store_ok db (snd (insert db key data fs)).
Proof.
  intros Hd [Hal Hun]. destruct key as [k|]; [|done].
  destruct (decide (key_size ≤ strlen k)) as [Hlong|Hk].
  { by rewrite insert_long. }
  assert (Hk' : strlen k < key_size) by lia. split.
  - by apply insert_aligned.
  - unfold unique_keys. rewrite insert_live_records by done.
    rewrite fmap_app. apply NoDup_app. split; [by apply unique_filter|]. split.
    + intros key [rec [-> [Hnk _]%list_elem_of_filter]]%list_elem_of_fmap.
      intros [rec' [E Hin]]%list_elem_of_fmap.
      apply list_elem_of_filter in Hin as [_ ->%list_elem_of_singleton].
      apply Hnk, has_key_cstr. rewrite E. unfold key_of.
      by rewrite make_record_key, cstr_key_field.
    + destruct (decide (live (make_record k data))).
      * rewrite filter_cons_True by done. apply NoDup_singleton.
      * rewrite filter_cons_False by done. constructor.
Qed.

Lemma exec_ok o fs :
  well_typed o → store_ok db fs → store_ok db (snd (exec db o fs)).
Proof.
  intros Ho Hok. destruct o as [key data|key|key|key| | |]; simpl in *.
  - unfold mbind, io_bind. pose proof (insert_ok key data fs Ho Hok).
    by destruct (insert db key data fs).
  - unfold mbind, io_bind. pose proof (remove_ok key fs Hok).
    by destruct (remove db key fs).
  - unfold mbind, io_bind. pose proof (query_files db key fs).
    destruct (query db key fs). by eapply store_ok_same.
  - unfold exists_, mbind, io_bind. pose proof (query_files db key fs).
    destruct (query db key fs). by eapply store_ok_same.
  - unfold mbind, io_bind. destruct (count_spec db fs) as [_ ?].
    destruct (count db fs). by eapply store_ok_same.
  - unfold mbind, io_bind. destruct (selectAll_spec db visit [] fs) as [_ ?].
    destruct (selectAll db visit [] fs). by eapply store_ok_same.
  - apply store_ok_fresh, clear_fresh.
Qed.

Lemma reachable_ok fs : reachable db fs → store_ok db fs.
Proof.
  induction 1 as [fs Hf|fs o _ IH Ho]; [by apply store_ok_fresh|by apply exec_ok].
Qed.

Lemma reachable_run ops fs :
  reachable db fs → Forall well_typed ops → reachable db (run db ops fs).
Proof.
  intros Hr Hops. revert fs Hr. induction Hops as [|o ops Ho _ IH]; intros fs Hr;
    [done|].
  apply IH. by apply reach_step.
Qed.
End Invariant.

(** ** The claims of the specification *)

(** Closed facts about concrete stores, settled by evaluation. *)
Ltac by_evaluation :=
  unfold unique_keys;
  match goal with
  | |- ¬ ?P => apply (bool_decide_eq_false_1 P); vm_compute; reflexivity
  | |- ?P => apply (bool_decide_eq_true_1 P); vm_compute; reflexivity
  end.


(** C2: on a store whose keys are unique and which holds a live record
    for a key [k] of fewer than 32 characters, [remove(k)] answers [true],
    a [query(k)] after it fails, and [count()] has gone down by exactly
    one. *)
Theorem remove_present_key `{Payload} (db : RecordDB) k fs :
  dbPath db ≠ temp_db →
  strlen k < key_size →
  unique_keys db fs →
  Exists (has_key k) (live_records db fs) →
  let fs' := snd (remove db (Some k) fs) in
  fst (remove db (Some k) fs) = true
  ∧ fst (query db (Some k) fs') = None
  ∧ fst (count db fs') + 1 = fst (count db fs).
Proof.
  intros Hapart _ Hun Hex fs'. subst fs'. split; [|split].
  - rewrite remove_result by done. by apply bool_decide_eq_true_2.
  - destruct (query_spec db k (snd (remove db (Some k) fs))) as [-> _].
    rewrite remove_live_records by done. unfold find_live.
    by rewrite filter_none_left.
  - destruct (count_spec db (snd (remove db (Some k) fs))) as [-> _].
    destruct (count_spec db fs) as [-> _].
    rewrite remove_live_records by done.
    rewrite <- (length_without_key k (live_records db fs)) by done.
    by rewrite bool_decide_eq_true_2.
Qed.

Lemma remove_present_key_witness :
  let fs' := snd (remove (H := payload_u8) db0 (Some key_a) store_ab) in
  fst (remove (H := payload_u8) db0 (Some key_a) store_ab) = true
  ∧ fst (query (H := payload_u8) db0 (Some key_a) fs') = None
  ∧ fst (count (H := payload_u8) db0 fs') + 1
    = fst (count (H := payload_u8) db0 store_ab).
Proof.
  apply (remove_present_key (H := payload_u8) db0 key_a store_ab);
    [done|vm_compute; lia|by_evaluation..].
Defined.

(** C6: with no live record for the key, a null key or one of fewer than
    32 characters, [remove] answers [false] and every file other than the
    sidecar, the database file among them, has the content it had. *)
Theorem remove_absent_key `{Payload} (db : RecordDB) key fs :
  dbPath db ≠ temp_db →
  (∀ k, key = Some k → strlen k < key_size) →
  (∀ k, key = Some k → ¬ Exists (has_key k) (live_records db fs)) →
  fst (remove db key fs) = false
  ∧ files (snd (remove db key fs)) !! dbPath db = files fs !! dbPath db
  ∧ ∀ p, p ≠ temp_db → files (snd (remove db key fs)) !! p = files fs !! p.
Proof.
  intros Hapart _ Hno. destruct key as [k|]; [|done].
  specialize (Hno k eq_refl).
  assert (Hr : fst (remove db (Some k) fs) = false).
  { rewrite remove_result by done. by apply bool_decide_eq_false_2. }
  assert (Hdb : files (snd (remove db (Some k) fs)) !! dbPath db
                = files fs !! dbPath db).
  { by rewrite remove_db_file, Hr. }
  split; [done|]. split; [done|]. intros p Hp.
  destruct (decide (p = dbPath db)) as [->|Hp']; [done|].
  by apply remove_other_files.
Qed.

Lemma remove_absent_key_witness :
  fst (remove (H := payload_u8) db0 (Some key_c) store_ab) = false
  ∧ files (snd (remove (H := payload_u8) db0 (Some key_c) store_ab)) !! dbPath db0
    = files store_ab !! dbPath db0
  ∧ ∀ p, p ≠ temp_db →
      files (snd (remove (H := payload_u8) db0 (Some key_c) store_ab)) !! p
      = files store_ab !! p.
Proof.
  apply (remove_absent_key (H := payload_u8) db0 (Some key_c) store_ab); [done| |].
  - intros k [= <-]. vm_compute. lia.
  - intros k [= <-]. by_evaluation.
Defined.

(** C7: a null key, or one of 32 characters or more, makes [insert]
    answer [false] at once: no file changes and no call reaches the file
    system. *)
Theorem insert_rejects_bad_key `{Payload} (db : RecordDB) key data fs :
  key = None ∨ (∃ k, key = Some k ∧ key_size ≤ strlen k) →
  insert db key data fs = (false, fs).
Proof.
  intros [->|(k & -> & Hk)]; [apply insert_null|by apply insert_long].
Qed.

Lemma insert_rejects_bad_key_witness :
  insert (H := payload_u8) db0 (Some (replicate 32 "k"%byte)) [Byte.x01] store_ab
  = (false, store_ab).
Proof.
  apply (insert_rejects_bad_key (H := payload_u8) db0). right.
  exists (replicate 32 "k"%byte). split; [reflexivity|]. vm_compute. lia.
Defined.

(** C10: [query] and [remove] answer [false] on a null key before any
    call to the file system: the state, its files and its list of calls,
    is returned as it was. *)
Theorem null_key_guard `{Payload} (db : RecordDB) fs :
  query db None fs = (None, fs) ∧ remove db None fs = (false, fs).
Proof. split; [apply query_null|apply remove_null]. Qed.

(** C5: in every state the class can bring a fresh store to, no key has
    more than one live record, and whatever operation comes next ([insert],
    [remove], [clear] or a read) that is still so afterwards. *)
Theorem one_live_record_per_key `{Payload} (db : RecordDB) fs o :
  dbPath db ≠ temp_db →
  reachable db fs →
  well_typed o →
  (∀ k, length (filter (has_key k) (live_records db fs)) ≤ 1)
  ∧ (∀ k, length (filter (has_key k) (live_records db (snd (exec db o fs)))) ≤ 1).
Proof.
  intros Hapart Hr Ho. split; intros k; apply at_most_one_per_key.
  - by apply reachable_ok.
  - by apply reachable_ok, reach_step.
Qed.

Lemma one_live_record_per_key_witness :
  (∀ k, length (filter (has_key k) (live_records (H := payload_u8) db0 store_ab)) ≤ 1)
  ∧ (∀ k, length (filter (has_key k)
            (live_records (H := payload_u8) db0
               (snd (exec (H := payload_u8) db0
                       (OpInsert (Some key_a) [Byte.x03]) store_ab)))) ≤ 1).
Proof.
  apply (one_live_record_per_key (H := payload_u8) db0 store_ab
           (OpInsert (Some key_a) [Byte.x03])).
  - done.
  - apply (reachable_run (H := payload_u8) db0);
      [by apply reach_fresh|by repeat constructor].
  - reflexivity.
Defined.

Lemma fold_visit {A} (f : A → list byte * list byte) (l : list A) seen :
  fold_left (λ seen x, visit (fst (f x)) (snd (f x)) seen) l seen = seen ++ (f <$> l).
Proof.
  revert seen. induction l as [|x l IH]; intros seen; simpl.
  - by rewrite app_nil_r.
  - rewrite IH. unfold visit. rewrite <- (assoc_L (++)). by destruct (f x).
Qed.

(** What a callback that writes its arguments down has seen after
    [selectAll]: key field and payload of each live record, in file order. *)
Lemma selectAll_visit_list `{Payload} (db : RecordDB) fs :
  fst (selectAll db visit [] fs)
  = (λ rec, (rec_key rec, rec_data rec)) <$> live_records db fs.
Proof.
  destruct (selectAll_spec db visit [] fs) as [-> _].
  exact (fold_visit (λ rec, (rec_key rec, rec_data rec)) (live_records db fs) []).
Qed.

(** C9: [selectAll] calls back once for each live record, in the order
    of the file, and for nothing else; a second run, with the database file
    as it was, makes the same calls. *)
Theorem selectAll_visits `{Payload} (db : RecordDB) fs :
  (∀ (V : Type) (cb : list byte → list byte → V → V) (v : V),
     fst (selectAll db cb v fs)
     = fold_left (λ v rec, cb (rec_key rec) (rec_data rec) v) (live_records db fs) v)
  ∧ fst (selectAll db visit [] fs)
    = (λ rec, (rec_key rec, rec_data rec)) <$> live_records db fs
  ∧ fst (selectAll db visit [] (snd (selectAll db visit [] fs)))
    = fst (selectAll db visit [] fs)
  ∧ (∀ fs', files fs' !! dbPath db = files fs !! dbPath db →
       fst (selectAll db visit [] fs') = fst (selectAll db visit [] fs)).
Proof.
  split; [intros V cb v; apply selectAll_spec|].
  split; [apply selectAll_visit_list|]. split.
  - rewrite !selectAll_visit_list. f_equal. apply live_records_same.
    by destruct (selectAll_spec db visit [] fs) as [_ ->].
  - intros fs' E. rewrite !selectAll_visit_list. f_equal. by apply live_records_same.
Qed.

(** File order is insertion order: for a payload type without tail
    padding, after [insert(k, v)] the callback sees the records of the other
    keys as before and then the new record, so that a key inserted again
    moves to the end. *)
Lemma selectAll_after_insert `{Payload} (db : RecordDB) k data fs :
  tail_pad = 0 → dbPath db ≠ temp_db →
  strlen k < key_size → length data = sizeT → db_aligned db fs →
  fst (selectAll db visit [] (snd (insert db (Some k) data fs)))
  = ((λ rec, (rec_key rec, rec_data rec))
       <$> filter (λ rec, ¬ has_key k rec) (live_records db fs))
    ++ [(key_field k, data)].
Proof.
  intros Hpad Hapart Hk Hd Hal.
  rewrite selectAll_visit_list, insert_live_records by done.
  rewrite (filter_cons_True live) by by apply make_record_live.
  rewrite fmap_app. simpl. by rewrite make_record_key, make_record_data.
Qed.

(** *** Insert, then query *)

(** For a payload type that needs no padding after the checksum, what
    [insert] has stored under a key is what [query] reads back. *)
Lemma insert_then_query_packed `{Payload} (db : RecordDB) k data fs :
  tail_pad = 0 → dbPath db ≠ temp_db →
  strlen k < key_size → length data = sizeT → db_aligned db fs →
  fst (insert db (Some k) data fs) = true
  ∧ fst (query db (Some k) (snd (insert db (Some k) data fs))) = Some data.
Proof.
  intros Hpad Hapart Hk Hd Hal. split; [by apply insert_accepts|].
  destruct (query_spec db k (snd (insert db (Some k) data fs))) as [-> _].
  rewrite insert_live_records by done.
  rewrite (filter_cons_True live) by by apply make_record_live.
  unfold find_live. rewrite filter_app, filter_none_left. simpl.
  rewrite filter_cons_True by by apply make_record_has_key.
  simpl. by rewrite make_record_data.
Qed.

(** With tail padding the record [insert] builds is live only if its
    checksum is zero: [computeCRC] then runs over the checksum byte, which
    was zero when the checksum was computed. *)
Lemma padded_record_live `{Payload} k data :
  0 < tail_pad → strlen k < key_size → length data = sizeT →
  live (make_record k data) ↔ rec_crc (make_record k data) = Byte.x00.
Proof.
  intros Hpad Hk Hd. unfold live, computeCRC, rec_crc.
  rewrite make_record_image by done.
  pose proof (key_field_length k Hk) as Hkf.
  assert (Hpre : length (key_field k ++ data) = crc_off)
    by (rewrite length_app; layout_lia).
  set (c := byte_of (crc8 (take (sizeofRecord - 1) (unsealed k data)))).
  assert (Hc : byte_val c = crc8 (take (sizeofRecord - 1) (unsealed k data)))
    by (unfold c; by rewrite byte_val_of by apply crc8_range).
  rewrite !(assoc_L (++)), <- Hpre.
  rewrite (list_lookup_total_middle _ _ _ (length (key_field k ++ data))) by done.
  rewrite Hc. unfold unsealed. rewrite !(assoc_L (++)).
  rewrite !take_app_ge by (rewrite Hpre; layout_lia).
  replace (sizeofRecord - 1 - length (key_field k ++ data)) with (S (tail_pad - 1))
    by (rewrite Hpre; layout_lia).
  replace (1 + tail_pad) with (S tail_pad) by lia.
  cbn [replicate take]. unfold crc8. rewrite !fold_left_app. cbn [fold_left].
  assert (Hr : (0 ≤ fold_left crc_byte (key_field k ++ data) 0 < 256)%Z)
    by by apply crc_fold_range.
  rewrite fold_left_app in Hr. split.
  - intros E. apply crc_fold_inj in E; [|apply crc_byte_range..].
    by apply crc_byte_inj_byte in E.
  - by intros ->.
Qed.

(** So with tail padding and a checksum other than zero, the [query] that
    follows an [insert] fails. *)
Lemma insert_then_query_padded `{Payload} (db : RecordDB) k data fs :
  0 < tail_pad → dbPath db ≠ temp_db →
  strlen k < key_size → length data = sizeT → db_aligned db fs →
  rec_crc (make_record k data) ≠ Byte.x00 →
  fst (insert db (Some k) data fs) = true
  ∧ fst (query db (Some k) (snd (insert db (Some k) data fs))) = None.
Proof.
  intros Hpad Hapart Hk Hd Hal Hcrc. split; [by apply insert_accepts|].
  destruct (query_spec db k (snd (insert db (Some k) data fs))) as [-> _].
  rewrite insert_live_records by done.
  rewrite (filter_cons_False live) by by rewrite padded_record_live.
  unfold find_live. by rewrite filter_nil, app_nil_r, filter_none_left.
Qed.

(** C1: with [T = int32_t] the record is 40 bytes with the checksum at
    offset 36, [computeCRC] runs over bytes 0 to 38 and so over the stored
    checksum; [insert("a", 1)] on an empty store answers [true] and the
    [query("a")] that follows answers [false]. *)
Theorem insert_then_query_int32 :
  let value := [Byte.x01; Byte.x00; Byte.x00; Byte.x00] in
  let fs' := snd (insert (H := payload_i32) db0 (Some key_a) value no_files) in
  fst (insert (H := payload_i32) db0 (Some key_a) value no_files) = true
  ∧ fst (query (H := payload_i32) db0 (Some key_a) fs') = None
  ∧ fst (count (H := payload_i32) db0 fs') = 0.
Proof. vm_compute. done. Qed.

(** *** The checksum *)

(** [computeCRC] is the specification's CRC-8 of the first
    [sizeof(Record) - 1] bytes. *)
Lemma computeCRC_reference `{Payload} rec :
  computeCRC rec = crc8_reference (take (sizeofRecord - 1) rec).
Proof. apply crc8_is_reference. Qed.

(** Without tail padding those are all the bytes but the checksum. *)
Lemma computeCRC_reference_packed `{Payload} rec :
  tail_pad = 0 → length rec = sizeofRecord →
  computeCRC rec = crc8_reference (without_crc rec).
Proof.
  intros Hpad Hlen. rewrite computeCRC_reference. f_equal. unfold without_crc.
  rewrite drop_ge, app_nil_r by layout_lia. f_equal. layout_lia.
Qed.

(** Whatever the padding, the checksum [insert] stores is the reference
    CRC-8 of all the other bytes of the record: the checksum byte is still
    zero when [computeCRC] reads it. *)
Lemma make_record_checksum `{Payload} k data :
  strlen k < key_size → length data = sizeT →
  byte_val (rec_crc (make_record k data))
  = crc8_reference (without_crc (make_record k data)).
Proof.
  intros Hk Hd. rewrite make_record_image by done.
  pose proof (key_field_length k Hk) as Hkf.
  assert (Hpre : length (key_field k ++ data) = crc_off)
    by (rewrite length_app; layout_lia).
  unfold rec_crc, without_crc. rewrite !(assoc_L (++)).
  rewrite <- Hpre at 1 2 3.
  rewrite (list_lookup_total_middle _ _ _ (length (key_field k ++ data))) by done.
  rewrite take_app_length.
  rewrite (cons_middle _ (key_field k ++ data)), (assoc_L (++)).
  rewrite drop_app_length' by (rewrite !length_app; simpl; lia).
  rewrite byte_val_of by apply crc8_range.
  rewrite <- crc8_is_reference. f_equal. unfold unsealed.
  rewrite (assoc_L (++)), take_app_ge by (rewrite Hpre; layout_lia). f_equal.
  rewrite take_replicate, Hpre. f_equal. layout_lia.
Qed.

(** C4: with [T = int32_t], on the record [insert("a", 1)] has written,
    the stored checksum is the reference CRC-8 of the other 39 bytes, and
    [computeCRC], which reads the checksum byte too and stops one byte
    early, returns something else. *)
Theorem computeCRC_int32_differs :
  let rec := make_record (H := payload_i32) key_a
               [Byte.x01; Byte.x00; Byte.x00; Byte.x00] in
  byte_val (rec_crc (H := payload_i32) rec)
  = crc8_reference (without_crc (H := payload_i32) rec)
  ∧ crc8_reference (without_crc (H := payload_i32) rec) = 51%Z
  ∧ computeCRC (H := payload_i32) rec = 111%Z.
Proof. vm_compute. done. Qed.

(** *** Counting *)

(** From a store that satisfies the invariant, the balance of a sequence
    follows the number of live records. *)
Lemma balance_live_records `{Payload} (db : RecordDB) ops fs :
  tail_pad = 0 → dbPath db ≠ temp_db →
  store_ok db fs → Forall well_typed ops →
  balance db ops fs (Z.of_nat (length (live_records db fs)))
  = Z.of_nat (length (live_records db (run db ops fs))).
Proof.
  intros Hpad Hapart Hok Hops. revert fs Hok.
  induction Hops as [|o ops Ho _ IH]; intros fs Hok; [done|].
  simpl. rewrite <- IH by by apply exec_ok. f_equal.
  destruct Hok as [Hal Hun].
  destruct o as [[k|] data|[k|]|key|key| | |]; simpl in *.
  - unfold mbind, io_bind, replaced.
    destruct (Nat.leb_spec key_size (strlen k)) as [Hlong|Hk].
    { rewrite insert_long by done. simpl. lia. }
    pose proof (insert_live_records db Hapart k data fs ltac:(lia) Hal) as Hl.
    destruct (insert_accepts db k data fs ltac:(lia)) as [Ht _].
    destruct (insert db (Some k) data fs) as [b fs1]. simpl in *. subst b.
    rewrite Hl, (filter_cons_True live) by (apply make_record_live; done || lia).
    rewrite length_app, remove_result by done. simpl.
    pose proof (length_without_key k (live_records db fs) Hun).
    case_bool_decide; lia.
  - lia.
  - unfold mbind, io_bind.
    pose proof (remove_live_records db Hapart k fs) as Hl.
    pose proof (remove_result db Hapart k fs) as Hr.
    destruct (remove db (Some k) fs) as [b fs1]. simpl in *. subst b.
    rewrite Hl. pose proof (length_without_key k (live_records db fs) Hun).
    case_bool_decide; lia.
  - lia.
  - unfold mbind, io_bind. pose proof (query_files db key fs) as Hf.
    destruct (query db key fs). simpl in *.
    by rewrite (live_records_same db fs f) by by rewrite Hf.
  - unfold exists_, mbind, io_bind. pose proof (query_files db key fs) as Hf.
    destruct (query db key fs). simpl in *.
    by rewrite (live_records_same db fs f) by by rewrite Hf.
  - unfold mbind, io_bind. destruct (count_spec db fs) as [_ Hf].
    destruct (count db fs) as [? f]. simpl in *.
    by rewrite (live_records_same db fs f) by by rewrite Hf.
  - unfold mbind, io_bind. destruct (selectAll_spec db visit [] fs) as [_ Hf].
    destruct (selectAll db visit [] fs) as [? f]. simpl in *.
    by rewrite (live_records_same db fs f) by by rewrite Hf.
  - by rewrite live_records_missing by apply clear_fresh.
Qed.

(** Without [clear] in the sequence the balance is made of the three
    counts: successful inserts, less successful [remove] calls, less the
    inserts that replaced a record. *)
Lemma balance_counts `{Payload} (db : RecordDB) ops fs acc :
  Forall (λ o, o ≠ OpClear) ops →
  balance db ops fs acc
  = (acc + Z.of_nat (successful_inserts db ops fs)
     - Z.of_nat (successful_removes db ops fs)
     - Z.of_nat (replacements db ops fs))%Z.
Proof.
  intros Hops. revert fs acc. induction Hops as [|o ops Ho _ IH]; intros fs acc.
  { simpl. lia. }
  cbn [balance successful_inserts successful_removes replacements].
  rewrite IH. destruct o; try done; repeat case_match; lia.
Qed.

(** C8 as stated does not hold: after [insert("a", 1)], [insert("a", 2)]
    two inserts have succeeded and no [remove] was called, and [count()]
    is 1; after [insert("a", 1)], [clear()] one insert has succeeded and
    [count()] is 0. *)
Lemma count_is_not_inserts_minus_removes :
  let again := [OpInsert (Some key_a) [Byte.x01]; OpInsert (Some key_a) [Byte.x02]] in
  let wiped := [OpInsert (Some key_a) [Byte.x01]; OpClear] in
  fst (count (H := payload_u8) db0 (run (H := payload_u8) db0 again no_files))
  ≠ successful_inserts (H := payload_u8) db0 again no_files
    - successful_removes (H := payload_u8) db0 again no_files
  ∧ fst (count (H := payload_u8) db0 (run (H := payload_u8) db0 wiped no_files))
    ≠ successful_inserts (H := payload_u8) db0 wiped no_files
      - successful_removes (H := payload_u8) db0 wiped no_files.
Proof. vm_compute. split; discriminate. Qed.

(** C8, amended: from a fresh store, for a payload type without tail
    padding, [count()] is the balance of the sequence: successful inserts
    minus successful removes since the last [clear], the [remove] that an
    [insert] performs on a key already present counted with the removes. *)
Theorem count_is_balance `{Payload} (db : RecordDB) ops fs :
  tail_pad = 0 → dbPath db ≠ temp_db →
  fresh db fs → Forall well_typed ops →
  Z.of_nat (fst (count db (run db ops fs))) = balance db ops fs 0.
Proof.
  intros Hpad Hapart Hf Hops. destruct (count_spec db (run db ops fs)) as [-> _].
  rewrite <- balance_live_records by (done || by apply store_ok_fresh).
  by rewrite live_records_missing.
Qed.

Lemma count_is_balance_witness :
  let ops := [OpInsert (Some key_a) [Byte.x01]; OpInsert (Some key_b) [Byte.x02];
              OpInsert (Some key_a) [Byte.x03]; OpRemove (Some key_b);
              OpRemove (Some key_c)] in
  Z.of_nat (fst (count (H := payload_u8) db0 (run (H := payload_u8) db0 ops no_files)))
  = balance (H := payload_u8) db0 ops no_files 0.
Proof.
  apply (count_is_balance (H := payload_u8) db0); [reflexivity|done|reflexivity|].
  by repeat constructor.
Defined.

(** *** Corruption *)

Section Corruption.
Context `{Payload}.

(** A byte replaced inside slot [s] changes that slot and no other. *)
Lemma slots_corrupt content s rec i b :
  slots content !! s = Some rec → i < sizeofRecord →
  slots (<[s * sizeofRecord + i := b]> content)
  = <[s := <[i := b]> rec]> (slots content).
Proof.
  revert content. induction s as [|s IH]; intros content Hs Hi.
  - destruct (decide (length content < sizeofRecord)) as [Hlt|Hge];
      [by rewrite slots_short in Hs|].
    rewrite (slots_step content) in Hs |- * by lia. injection Hs as <-.
    rewrite <- (take_drop sizeofRecord content) at 1. simpl.
    rewrite insert_app_l by (rewrite length_take; lia).
    rewrite slots_app by (rewrite length_insert, length_take; lia). done.
  - destruct (decide (length content < sizeofRecord)) as [Hlt|Hge];
      [by rewrite slots_short in Hs|].
    rewrite (slots_step content) in Hs |- * by lia. simpl in Hs.
    rewrite <- (take_drop sizeofRecord content) at 1.
    rewrite insert_app_r_alt by (rewrite length_take; lia).
    rewrite length_take, Nat.min_l by lia.
    replace (S s * sizeofRecord + i - sizeofRecord) with (s * sizeofRecord + i) by lia.
    rewrite slots_app by (rewrite length_take; lia). simpl. f_equal. by apply IH.
Qed.

(** A byte under the checksum replaced by another value: the checksum no
    longer matches. *)
Lemma corrupt_not_live rec i b :
  live rec → i < sizeofRecord - 1 → i ≠ crc_off →
  i < length rec → rec !! i ≠ Some b →
  ¬ live (<[i := b]> rec).
Proof.
  unfold live, computeCRC, rec_crc. intros Hl Hi Hcrc Hlen Hb Hl'.
  rewrite take_insert_lt, list_lookup_total_insert_ne in Hl' by done.
  rewrite <- Hl in Hl'. clear Hl.
  destruct (lookup_lt_is_Some_2 rec i Hlen) as [b0 Hb0].
  assert (Hp : take (sizeofRecord - 1) rec !! i = Some b0)
    by by rewrite lookup_take_lt.
  rewrite insert_take_drop in Hl' by (by eapply lookup_lt_Some).
  rewrite <- (take_drop_middle _ _ _ Hp) in Hl' at 3.
  apply crc8_one_byte in Hl'; [done|]. intros ->. by rewrite Hb0 in Hb.
Qed.

Lemma filter_replace_dead (l : list (list byte)) s rec rec' :
  l !! s = Some rec → live rec → ¬ live rec' →
  filter live l = filter live (take s l) ++ rec :: filter live (drop (S s) l)
  ∧ filter live (<[s := rec']> l)
    = filter live (take s l) ++ filter live (drop (S s) l).
Proof.
  intros Hs Hl Hl'. split.
  - rewrite <- (take_drop_middle _ _ _ Hs) at 1.
    by rewrite filter_app, filter_cons_True.
  - rewrite insert_take_drop by by eapply lookup_lt_Some.
    by rewrite filter_app, filter_cons_False.
Qed.

Lemma cstr_key_of rec : cstr (key_of rec) = key_of rec.
Proof. apply cstr_idemp. Qed.

(** With unique keys, the first live record under the key of [x] is [x]. *)
Lemma find_live_unique (l : list (list byte)) x :
  NoDup (key_of <$> l) → x ∈ l → find_live (key_of x) l = Some x.
Proof.
  unfold find_live. induction l as [|y l IH]; [by intros _ ?%not_elem_of_nil|].
  rewrite fmap_cons, NoDup_cons. intros [Hnotin Hnd] Hin.
  apply elem_of_cons in Hin as [->|Hin].
  - rewrite filter_cons_True; [done|]. apply has_key_cstr. by rewrite cstr_key_of.
  - rewrite filter_cons_False; [by apply IH|]. intros Hk. apply Hnotin.
    apply has_key_cstr in Hk. rewrite cstr_key_of in Hk.
    rewrite Hk. by apply list_elem_of_fmap_2.
Qed.

Lemma find_live_absent (l : list (list byte)) x :
  key_of x ∉ key_of <$> l → find_live (key_of x) l = None.
Proof.
  intros Hk. unfold find_live.
  destruct (filter (has_key (key_of x)) l) as [|y l'] eqn:Ef; [done|].
  assert (Hin : y ∈ filter (has_key (key_of x)) l) by (rewrite Ef; left).
  apply list_elem_of_filter in Hin as [Hy Hin]. destruct Hk.
  apply has_key_cstr in Hy. rewrite cstr_key_of in Hy. rewrite <- Hy.
  by apply list_elem_of_fmap_2.
Qed.
End Corruption.

(** X26: in a store with unique keys whose live records have a terminator
    in their key field, replacing any byte of a live record that
    [computeCRC] reads, other than the checksum byte, by another value
    takes that record, and no other, out of what [query], [count] and
    [selectAll] see: the live records are the former ones less this one, in
    the same order, and each of the others is still found under its key
    with its payload.  The bytes [computeCRC] reads are all the bytes of the
    slot but the last; for a payload type without tail padding the last is
    the checksum. *)
Theorem corrupted_record_is_invisible `{Payload} (db : RecordDB)
    fs content s rec i b :
  files fs !! dbPath db = Some content →
  unique_keys db fs →
  Forall (λ r, strlen (rec_key r) < key_size) (live_records db fs) →
  slots content !! s = Some rec →
  live rec →
  i < sizeofRecord - 1 → i ≠ crc_off →
  rec !! i ≠ Some b →
  let fs' := corrupt db (s * sizeofRecord + i) b fs in
  ∃ before after,
    live_records db fs = before ++ rec :: after
    ∧ live_records db fs' = before ++ after
    ∧ fst (query db (Some (key_of rec)) fs') = None
    ∧ fst (count db fs') + 1 = fst (count db fs)
    ∧ fst (selectAll db visit [] fs')
      = (λ r, (rec_key r, rec_data r)) <$> (before ++ after)
    ∧ ∀ other, other ∈ before ++ after →
        fst (query db (Some (key_of other)) fs') = Some (rec_data other)
        ∧ fst (query db (Some (key_of other)) fs) = Some (rec_data other).
Proof.
  intros Hfile Hun _ Hs Hl Hi Hcrc Hb fs'.
  assert (Hlen : length rec = sizeofRecord).
  { pose proof (slots_sized content) as Hsz. rewrite Forall_forall in Hsz.
    apply Hsz. by eapply list_elem_of_lookup_2. }
  assert (Hfile' : files fs' !! dbPath db
                   = Some (<[s * sizeofRecord + i := b]> content)).
  { unfold fs', corrupt. simpl. by rewrite lookup_alter_eq, Hfile. }
  assert (Hdead : ¬ live (<[i := b]> rec))
    by (apply corrupt_not_live; done || lia).
  destruct (filter_replace_dead (slots content) s rec (<[i := b]> rec) Hs Hl Hdead)
    as [Hold Hnew].
  set (before := filter live (take s (slots content))) in *.
  set (after := filter live (drop (S s) (slots content))) in *.
  assert (Hlive : live_records db fs = before ++ rec :: after)
    by by rewrite (live_records_file _ _ _ Hfile).
  assert (Hlive' : live_records db fs' = before ++ after).
  { rewrite (live_records_file _ _ _ Hfile').
    by rewrite (slots_corrupt content s rec) by (done || lia). }
  unfold unique_keys in Hun. rewrite Hlive in Hun.
  assert (Hun' : NoDup (key_of <$> before ++ after)).
  { eapply sublist_NoDup; [exact Hun|]. apply fmap_sublist.
    apply sublist_app; [done|]. by apply sublist_cons. }
  assert (Hgone : key_of rec ∉ key_of <$> before ++ after).
  { rewrite !fmap_app, fmap_cons in *.
    apply NoDup_app in Hun as (_ & Hdisj & [Hnot _]%NoDup_cons).
    intros [Hin|Hin]%elem_of_app; [|done].
    apply (Hdisj _ Hin). left. }
  exists before, after. split; [done|]. split; [done|]. split; [|split; [|split]].
  - destruct (query_spec db (key_of rec) fs') as [-> _].
    by rewrite Hlive', find_live_absent.
  - destruct (count_spec db fs') as [-> _]. destruct (count_spec db fs) as [-> _].
    rewrite Hlive, Hlive', !length_app. simpl. lia.
  - by rewrite selectAll_visit_list, Hlive'.
  - intros other Hin. split.
    + destruct (query_spec db (key_of other) fs') as [-> _].
      by rewrite Hlive', find_live_unique.
    + destruct (query_spec db (key_of other) fs) as [-> _].
      rewrite Hlive, find_live_unique; [done..|].
      apply elem_of_app in Hin as [?|?]; apply elem_of_app; [by left|by right; right].
Qed.

Lemma corrupted_record_is_invisible_witness :
  let fs' := corrupt db0 (0 * sizeofRecord (H := payload_u8) + 32) Byte.x09 store_ab in
  ∃ before after,
    live_records (H := payload_u8) db0 store_ab = before ++ record_a :: after
    ∧ live_records (H := payload_u8) db0 fs' = before ++ after
    ∧ fst (query (H := payload_u8) db0 (Some (key_of record_a)) fs') = None
    ∧ fst (count (H := payload_u8) db0 fs') + 1
      = fst (count (H := payload_u8) db0 store_ab)
    ∧ fst (selectAll (H := payload_u8) db0 visit [] fs')
      = (λ r, (rec_key r, rec_data (H := payload_u8) r)) <$> (before ++ after)
    ∧ ∀ other, other ∈ before ++ after →
        fst (query (H := payload_u8) db0 (Some (key_of other)) fs')
        = Some (rec_data (H := payload_u8) other)
        ∧ fst (query (H := payload_u8) db0 (Some (key_of other)) store_ab)
          = Some (rec_data (H := payload_u8) other).
Proof.
  apply (corrupted_record_is_invisible (H := payload_u8) db0 store_ab content_ab
           0 record_a 32 Byte.x09).
  - vm_compute. reflexivity.
  - by_evaluation.
  - by_evaluation.
  - vm_compute. reflexivity.
  - apply (make_record_live (H := payload_u8));
      [reflexivity|vm_compute; lia|reflexivity].
  - vm_compute. lia.
  - vm_compute. lia.
  - vm_compute. discriminate.
Defined.

(** The one byte of a slot that [computeCRC] does not read is the last
    one.  With [T = int32_t] that is a padding byte: the record
    [insert("a", 131)] writes has checksum 0 and is live, and stays live
    when its byte 39 is replaced. *)
Example last_padding_byte_unchecked :
  let rec := make_record (H := payload_i32) key_a
               [Byte.x83; Byte.x00; Byte.x00; Byte.x00] in
  crc_ok (H := payload_i32) rec = true
  ∧ crc_ok (H := payload_i32) (<[39 := Byte.xff]> rec) = true.
Proof. vm_compute. done. Qed.

(** C3: with [T = int32_t] the slot is 40 bytes, the checksum is byte 36
    and bytes 37 to 39 are padding; [computeCRC] stops before byte 39.  The
    record of [insert("a", 131)] has checksum 0 and is live; with its byte
    39, not the checksum byte, replaced by another value, [query("a")]
    still yields 131, [count()] is still 1 and [selectAll] still calls
    back for it. *)
Theorem flipped_padding_byte_int32 :
  let value := [Byte.x83; Byte.x00; Byte.x00; Byte.x00] in
  let fs := snd (insert (H := payload_i32) db0 (Some key_a) value no_files) in
  let fs' := corrupt db0 39 Byte.xff fs in
  crc_off (H := payload_i32) = 36
  ∧ sizeofRecord (H := payload_i32) = 40
  ∧ fst (query (H := payload_i32) db0 (Some key_a) fs) = Some value
  ∧ files fs' !! dbPath db0 ≠ files fs !! dbPath db0
  ∧ fst (query (H := payload_i32) db0 (Some key_a) fs') = Some value
  ∧ fst (count (H := payload_i32) db0 fs') = 1
  ∧ length (fst (selectAll (H := payload_i32) db0 visit [] fs')) = 1.
Proof. vm_compute. repeat split; done. Qed.

(** ** Further properties of the operations *)

Lemma store_ab_ok : store_ok (H := payload_u8) db0 store_ab.
Proof.
  apply reachable_ok; [done|]. apply reachable_run.
  - by apply reach_fresh.
  - by repeat constructor.
Qed.

Lemma filter_other_key `{Payload} k k' (l : list (list byte)) :
  cstr k' ≠ cstr k →
  filter (has_key k') (filter (λ rec, ¬ has_key k rec) l) = filter (has_key k') l.
Proof.
  intros Hne. rewrite list_filter_filter. apply list_filter_iff. intros rec.
  rewrite !has_key_cstr. split; [tauto|]. intros E. split; [done|]. congruence.
Qed.

Lemma length_filter_split {A} (P : A → Prop) `{∀ x, Decision (P x)} (l : list A) :
  length (filter (λ x, ¬ P x) l) + length (filter P l) = length l.
Proof.
  induction l as [|x l IH]; [done|]. destruct (decide (P x)).
  - rewrite (filter_cons_False (λ x, ¬ P x)), filter_cons_True by tauto. simpl. lia.
  - rewrite (filter_cons_True (λ x, ¬ P x)), filter_cons_False by tauto. simpl. lia.
Qed.

(** X1: for a key of fewer than 32 characters [exists(key)] answers [true]
    exactly when a live record carries the key; for any key it answers
    [true] exactly when [query] succeeds, it changes no file, and on a
    null key it makes no call to the file system. *)
Theorem exists_answers `{Payload} (db : RecordDB) k fs :
  strlen k < key_size →
  (fst (exists_ db (Some k) fs) = true
   ↔ ∃ rec, rec ∈ live_records db fs ∧ has_key k rec)
  ∧ (∀ key, fst (exists_ db key fs) = true ↔ is_Some (fst (query db key fs)))
  ∧ (∀ key, files (snd (exists_ db key fs)) = files fs)
  ∧ exists_ db None fs = (false, fs).
Proof.
  intros _. split; [|split; [|split]].
  - destruct (exists_spec db k fs) as [-> _].
    by rewrite bool_decide_eq_true, Exists_exists.
  - intros key. unfold exists_, mbind, io_bind.
    destruct (query db key fs) as [r fs']. simpl. apply bool_decide_eq_true.
  - intros [k'|]; [apply exists_spec|done].
  - done.
Qed.

Lemma exists_answers_witness :
  (fst (exists_ (H := payload_u8) db0 (Some key_a) store_ab) = true
   ↔ ∃ rec, rec ∈ live_records (H := payload_u8) db0 store_ab ∧ has_key key_a rec)
  ∧ (∀ key, fst (exists_ (H := payload_u8) db0 key store_ab) = true
            ↔ is_Some (fst (query (H := payload_u8) db0 key store_ab)))
  ∧ (∀ key, files (snd (exists_ (H := payload_u8) db0 key store_ab)) = files store_ab)
  ∧ exists_ (H := payload_u8) db0 None store_ab = (false, store_ab).
Proof.
  apply (exists_answers (H := payload_u8) db0 key_a store_ab). vm_compute. lia.
Defined.

(** X2: after [clear()] the store is empty whatever it held: [count()] is
    0, [query] and [exists] fail for every key, [selectAll] calls back for
    nothing; no file but the database file is touched. *)
Theorem clear_empties `{Payload} (db : RecordDB) fs :
  let fs' := snd (clear db fs) in
  fst (count db fs') = 0
  ∧ (∀ key, fst (query db key fs') = None)
  ∧ (∀ key, fst (exists_ db key fs') = false)
  ∧ (∀ (V : Type) (cb : list byte → list byte → V → V) v,
       fst (selectAll db cb v fs') = v)
  ∧ files fs' !! dbPath db = None
  ∧ (∀ p, p ≠ dbPath db → files fs' !! p = files fs !! p).
Proof.
  intros fs'. assert (Hl : live_records db fs' = [])
    by apply live_records_missing, clear_fresh.
  split; [|split; [|split; [|split; [|split]]]].
  - destruct (count_spec db fs') as [-> _]. by rewrite Hl.
  - intros [k|]; [|done]. destruct (query_spec db k fs') as [-> _]. by rewrite Hl.
  - intros [k|]; [|done]. destruct (exists_spec db k fs') as [-> _].
    rewrite Hl. apply bool_decide_eq_false_2. by intros ?%Exists_nil.
  - intros V cb v. destruct (selectAll_spec db cb v fs') as [-> _]. by rewrite Hl.
  - apply clear_fresh.
  - intros p Hp. unfold fs'. rewrite clear_files. by apply lookup_delete_ne.
Qed.

(** X3: the scans only read: [query], [exists], [count] and [selectAll]
    leave every file as it was. *)
Theorem scans_keep_files `{Payload} (db : RecordDB) fs :
  (∀ key, files (snd (query db key fs)) = files fs)
  ∧ (∀ key, files (snd (exists_ db key fs)) = files fs)
  ∧ files (snd (count db fs)) = files fs
  ∧ (∀ (V : Type) (cb : list byte → list byte → V → V) v,
       files (snd (selectAll db cb v fs)) = files fs).
Proof.
  split; [|split; [|split]].
  - intros key. apply query_files.
  - intros [k|]; [apply exists_spec|done].
  - apply count_spec.
  - intros V cb v. apply selectAll_spec.
Qed.

(** X4: on a store without database file every call answers as for an
    empty store and none of them creates a file: [query] and [exists] fail,
    [count()] is 0, [selectAll] calls back for nothing, and [remove]
    answers [false] before it has opened the sidecar. *)
Theorem missing_file_answers `{Payload} (db : RecordDB) key fs :
  files fs !! dbPath db = None →
  fst (query db key fs) = None
  ∧ fst (exists_ db key fs) = false
  ∧ fst (count db fs) = 0
  ∧ (∀ (V : Type) (cb : list byte → list byte → V → V) v,
       fst (selectAll db cb v fs) = v)
  ∧ fst (remove db key fs) = false
  ∧ files (snd (remove db key fs)) = files fs.
Proof.
  intros Hno. pose proof (live_records_missing db fs Hno) as Hl.
  split; [|split; [|split; [|split; [|split]]]].
  - destruct key as [k|]; [|done]. destruct (query_spec db k fs) as [-> _].
    by rewrite Hl.
  - destruct key as [k|]; [|done]. destruct (exists_spec db k fs) as [-> _].
    rewrite Hl. apply bool_decide_eq_false_2. by intros ?%Exists_nil.
  - destruct (count_spec db fs) as [-> _]. by rewrite Hl.
  - intros V cb v. destruct (selectAll_spec db cb v fs) as [-> _]. by rewrite Hl.
  - destruct key as [k|]; [|done]. by apply remove_missing.
  - destruct key as [k|]; [|done]. by apply remove_missing.
Qed.

Lemma missing_file_answers_witness :
  fst (query (H := payload_u8) db0 (Some key_a) no_files) = None
  ∧ fst (exists_ (H := payload_u8) db0 (Some key_a) no_files) = false
  ∧ fst (count (H := payload_u8) db0 no_files) = 0
  ∧ (∀ (V : Type) (cb : list byte → list byte → V → V) v,
       fst (selectAll (H := payload_u8) db0 cb v no_files) = v)
  ∧ fst (remove (H := payload_u8) db0 (Some key_a) no_files) = false
  ∧ files (snd (remove (H := payload_u8) db0 (Some key_a) no_files)) = files no_files.
Proof.
  apply (missing_file_answers (H := payload_u8) db0 (Some key_a) no_files).
  reflexivity.
Defined.

(** X5: for a payload type without tail padding, on a database file of
    whole slots, [insert] with a key of at most 31 characters answers
    [true], and [query] and [exists] then find the key with the value just
    stored. *)
Theorem insert_query_roundtrip `{Payload} (db : RecordDB) k data fs :
  tail_pad = 0 → dbPath db ≠ temp_db →
  strlen k < key_size → length data = sizeT → db_aligned db fs →
  let fs' := snd (insert db (Some k) data fs) in
  fst (insert db (Some k) data fs) = true
  ∧ fst (query db (Some k) fs') = Some data
  ∧ fst (exists_ db (Some k) fs') = true.
Proof.
  intros Hpad Hapart Hk Hd Hal fs'.
  destruct (insert_then_query_packed db k data fs) as [Hi Hq]; try done.
  split; [done|]. split; [done|].
  unfold exists_, mbind, io_bind. fold fs' in Hq.
  destruct (query db (Some k) fs') as [r ?]. simpl in *. by subst r.
Qed.

Lemma insert_query_roundtrip_witness :
  let fs' := snd (insert (H := payload_u8) db0 (Some key_31) [Byte.x05] store_ab) in
  fst (insert (H := payload_u8) db0 (Some key_31) [Byte.x05] store_ab) = true
  ∧ fst (query (H := payload_u8) db0 (Some key_31) fs') = Some [Byte.x05]
  ∧ fst (exists_ (H := payload_u8) db0 (Some key_31) fs') = true.
Proof.
  apply (insert_query_roundtrip (H := payload_u8) db0 key_31 [Byte.x05] store_ab).
  - reflexivity.
  - done.
  - vm_compute. lia.
  - reflexivity.
  - apply store_ab_ok.
Defined.

(** X6: [insert] on a key that is present replaces: for a payload type
    without tail padding, [query] then yields the new value and [count()]
    is what it was. *)
Theorem insert_replaces `{Payload} (db : RecordDB) k data fs :
  tail_pad = 0 → dbPath db ≠ temp_db →
  strlen k < key_size → length data = sizeT → store_ok db fs →
  Exists (has_key k) (live_records db fs) →
  let fs' := snd (insert db (Some k) data fs) in
  fst (query db (Some k) fs') = Some data
  ∧ fst (count db fs') = fst (count db fs).
Proof.
  intros Hpad Hapart Hk Hd [Hal Hun] Hex fs'.
  split; [by apply insert_then_query_packed|].
  destruct (count_spec db fs') as [-> _]. destruct (count_spec db fs) as [-> _].
  unfold fs'. rewrite insert_live_records by done.
  rewrite (filter_cons_True live) by by apply make_record_live.
  rewrite length_app. simpl.
  pose proof (length_without_key k (live_records db fs) Hun) as Hlen.
  rewrite bool_decide_eq_true_2 in Hlen by done. lia.
Qed.

Lemma insert_replaces_witness :
  let fs' := snd (insert (H := payload_u8) db0 (Some key_a) [Byte.x03] store_ab) in
  fst (query (H := payload_u8) db0 (Some key_a) fs') = Some [Byte.x03]
  ∧ fst (count (H := payload_u8) db0 fs') = fst (count (H := payload_u8) db0 store_ab).
Proof.
  apply (insert_replaces (H := payload_u8) db0 key_a [Byte.x03] store_ab).
  - reflexivity.
  - done.
  - vm_compute. lia.
  - reflexivity.
  - apply store_ab_ok.
  - by_evaluation.
Defined.



(** On a file with stray bytes at its end the record is appended all the
    same, not on a slot boundary, and the scans do not see it: [count()]
    stays 2. *)
Example insert_after_stray_bytes :
  let fs' := snd (insert (H := payload_u8) db0 (Some key_c) [Byte.x03] store_ab_stray) in
  fst (insert (H := payload_u8) db0 (Some key_c) [Byte.x03] store_ab_stray) = true
  ∧ files fs' !! dbPath db0
    = Some (content_ab ++ [Byte.x07; Byte.x07]
            ++ make_record (H := payload_u8) key_c [Byte.x03])
  ∧ fst (count (H := payload_u8) db0 store_ab_stray) = 2
  ∧ fst (count (H := payload_u8) db0 fs') = 2.
Proof. vm_compute. done. Qed.

(** X8: [insert] under one key leaves the other keys alone: on a file of
    whole slots, for any layout, a [query] for a different key answers after
    the [insert] what it answered before. *)
Theorem insert_keeps_other_keys `{Payload} (db : RecordDB) k k' data fs :
  dbPath db ≠ temp_db →
  strlen k < key_size → length data = sizeT → db_aligned db fs →
  cstr k' ≠ cstr k →
  fst (query db (Some k') (snd (insert db (Some k) data fs)))
  = fst (query db (Some k') fs).
Proof.
  intros Hapart Hk Hd Hal Hne.
  destruct (query_spec db k' (snd (insert db (Some k) data fs))) as [-> _].
  destruct (query_spec db k' fs) as [-> _]. f_equal.
  rewrite insert_live_records by done. unfold find_live.
  rewrite filter_app, filter_other_key by done.
  replace (filter (has_key k') (filter live [make_record k data])) with (@nil (list byte));
    [by rewrite app_nil_r|].
  destruct (decide (live (make_record k data))).
  - rewrite (filter_cons_True live) by done. rewrite filter_cons_False; [done|].
    rewrite make_record_has_key by done. congruence.
  - by rewrite (filter_cons_False live).
Qed.

Lemma insert_keeps_other_keys_witness :
  fst (query (H := payload_u8) db0 (Some key_b)
         (snd (insert (H := payload_u8) db0 (Some key_a) [Byte.x03] store_ab)))
  = fst (query (H := payload_u8) db0 (Some key_b) store_ab).
Proof.
  apply (insert_keeps_other_keys (H := payload_u8) db0 key_a key_b [Byte.x03] store_ab).
  - done.
  - vm_compute. lia.
  - reflexivity.
  - apply store_ab_ok.
  - vm_compute. discriminate.
Defined.

(** X9: [remove] under one key leaves the other keys alone: for any file
    and any layout, a [query] for a different key answers after the
    [remove] what it answered before. *)
Theorem remove_keeps_other_keys `{Payload} (db : RecordDB) k k' fs :
  dbPath db ≠ temp_db →
  cstr k' ≠ cstr k →
  fst (query db (Some k') (snd (remove db (Some k) fs)))
  = fst (query db (Some k') fs).
Proof.
  intros Hapart Hne.
  destruct (query_spec db k' (snd (remove db (Some k) fs))) as [-> _].
  destruct (query_spec db k' fs) as [-> _]. f_equal.
  rewrite remove_live_records by done. unfold find_live.
  by rewrite filter_other_key.
Qed.

Lemma remove_keeps_other_keys_witness :
  fst (query (H := payload_u8) db0 (Some key_b)
         (snd (remove (H := payload_u8) db0 (Some key_a) store_ab)))
  = fst (query (H := payload_u8) db0 (Some key_b) store_ab).
Proof.
  apply (remove_keeps_other_keys (H := payload_u8) db0 key_a key_b store_ab).
  - done.
  - vm_compute. discriminate.
Defined.

(** X10: a [remove] of a key of fewer than 32 characters that answers
    [true] compacts: the database file is then exactly the records that
    were live and carry another key, in their order, each slot of it live,
    so that dead slots and a short rest at the end are gone and [count()]
    records fill the file. *)
Theorem remove_compacts `{Payload} (db : RecordDB) k fs :
  dbPath db ≠ temp_db →
  strlen k < key_size →
  fst (remove db (Some k) fs) = true →
  let fs' := snd (remove db (Some k) fs) in
  let kept := filter (λ rec, ¬ has_key k rec) (live_records db fs) in
  files fs' !! dbPath db = Some (concat kept)
  ∧ db_slots db fs' = kept
  ∧ live_records db fs' = kept
  ∧ length (concat kept) = fst (count db fs') * sizeofRecord.
Proof.
  intros Hapart _ Hfound fs' kept.
  assert (Hfile : files fs' !! dbPath db = Some (concat kept)).
  { unfold fs'. by rewrite remove_db_file, Hfound. }
  assert (Hsized : Forall (λ rec, length rec = sizeofRecord) kept).
  { unfold kept, live_records, db_slots.
    destruct (files fs !! dbPath db) as [c|]; simpl; [|by rewrite filter_nil].
    apply Forall_forall. intros rec [_ Hin]%list_elem_of_filter. revert rec Hin.
    apply Forall_forall, filter_sized. }
  assert (Hlive : live_records db fs' = kept) by by apply remove_live_records.
  split; [done|]. split; [|split; [done|]].
  - unfold db_slots. rewrite Hfile. simpl. by apply slots_concat_all.
  - destruct (count_spec db fs') as [-> _]. rewrite Hlive.
    clear -Hsized. induction Hsized as [|rec l Hr _ IH]; [done|].
    cbn [concat length]. rewrite length_app, IH, Hr. lia.
Qed.

Lemma remove_compacts_witness :
  let fs' := snd (remove (H := payload_u8) db0 (Some key_a) store_ab_dead) in
  let kept := filter (λ rec, ¬ has_key key_a rec)
                (live_records (H := payload_u8) db0 store_ab_dead) in
  files fs' !! dbPath db0 = Some (concat kept)
  ∧ db_slots (H := payload_u8) db0 fs' = kept
  ∧ live_records (H := payload_u8) db0 fs' = kept
  ∧ length (concat kept)
    = fst (count (H := payload_u8) db0 fs') * sizeofRecord (H := payload_u8).
Proof.
  apply (remove_compacts (H := payload_u8) db0 key_a store_ab_dead).
  - done.
  - vm_compute. lia.
  - vm_compute. reflexivity.
Defined.

(** X11: [remove] leaves nothing to remove: a second [remove] of the same
    key, straight after the first, answers [false] and leaves the database
    file as the first one left it. *)
Theorem remove_twice `{Payload} (db : RecordDB) k fs :
  dbPath db ≠ temp_db →
  let fs1 := snd (remove db (Some k) fs) in
  fst (remove db (Some k) fs1) = false
  ∧ files (snd (remove db (Some k) fs1)) !! dbPath db = files fs1 !! dbPath db.
Proof.
  intros Hapart fs1.
  assert (Hr : fst (remove db (Some k) fs1) = false).
  { rewrite remove_result by done. apply bool_decide_eq_false_2.
    unfold fs1. rewrite remove_live_records by done.
    rewrite Exists_exists. intros (rec & Hin & Hk).
    apply list_elem_of_filter in Hin. tauto. }
  split; [done|]. by rewrite remove_db_file, Hr.
Qed.

Lemma remove_twice_witness :
  let fs1 := snd (remove (H := payload_u8) db0 (Some key_a) store_ab) in
  fst (remove (H := payload_u8) db0 (Some key_a) fs1) = false
  ∧ files (snd (remove (H := payload_u8) db0 (Some key_a) fs1)) !! dbPath db0
    = files fs1 !! dbPath db0.
Proof. apply (remove_twice (H := payload_u8) db0 key_a store_ab). done. Defined.

(** X12: [remove] of a key of fewer than 32 characters takes out every
    live record of the key, were there several: afterwards [query] fails
    for the key, and [count()] has gone down by the number of live records
    that carried it. *)
Theorem remove_takes_all_matches `{Payload} (db : RecordDB) k fs :
  dbPath db ≠ temp_db →
  strlen k < key_size →
  let fs' := snd (remove db (Some k) fs) in
  fst (query db (Some k) fs') = None
  ∧ fst (count db fs') + length (filter (has_key k) (live_records db fs))
    = fst (count db fs).
Proof.
  intros Hapart _ fs'. split.
  - destruct (query_spec db k fs') as [-> _]. unfold fs'.
    rewrite remove_live_records by done. unfold find_live.
    by rewrite filter_none_left.
  - destruct (count_spec db fs') as [-> _]. destruct (count_spec db fs) as [-> _].
    unfold fs'. rewrite remove_live_records by done. apply length_filter_split.
Qed.

Lemma remove_takes_all_matches_witness :
  let fs' := snd (remove (H := payload_u8) db0 (Some key_a) store_dup) in
  fst (query (H := payload_u8) db0 (Some key_a) fs') = None
  ∧ fst (count (H := payload_u8) db0 fs')
    + length (filter (has_key key_a) (live_records (H := payload_u8) db0 store_dup))
    = fst (count (H := payload_u8) db0 store_dup).
Proof.
  apply (remove_takes_all_matches (H := payload_u8) db0 key_a store_dup);
    [done|vm_compute; lia].
Defined.

(** Two live records under the key: both go. *)
Example remove_takes_both :
  fst (count (H := payload_u8) db0 store_dup) = 2
  ∧ fst (count (H := payload_u8) db0
           (snd (remove (H := payload_u8) db0 (Some key_a) store_dup))) = 0.
Proof. vm_compute. done. Qed.

(** X13: [remove] on an existing database file uses [/temp.db] as its
    scratch file and leaves none behind: whatever was stored under that
    path before is gone, and the files under all other paths than these two
    are as they were. *)
Theorem remove_clears_sidecar `{Payload} (db : RecordDB) k fs :
  dbPath db ≠ temp_db →
  is_Some (files fs !! dbPath db) →
  let fs' := snd (remove db (Some k) fs) in
  files fs' !! temp_db = None
  ∧ (∀ p, p ≠ dbPath db → p ≠ temp_db → files fs' !! p = files fs !! p).
Proof.
  intros Hapart [content Hc] fs'. split.
  - unfold fs'. destruct (remove_present db Hapart k fs content Hc) as [_ ->].
    case_bool_decide; by simplify_map_eq.
  - intros p Hp1 Hp2. by apply remove_other_files.
Qed.

Lemma remove_clears_sidecar_witness :
  let fs' := snd (remove (H := payload_u8) db0 (Some key_c) store_ab_sidecar) in
  files fs' !! temp_db = None
  ∧ (∀ p, p ≠ dbPath db0 → p ≠ temp_db →
       files fs' !! p = files store_ab_sidecar !! p).
Proof.
  apply (remove_clears_sidecar (H := payload_u8) db0 key_c store_ab_sidecar).
  - done.
  - vm_compute. eexists. reflexivity.
Defined.

(** X14: [remove] keeps the order of what it keeps: [selectAll] after
    the [remove] of a key of fewer than 32 characters makes the calls it
    made before, in the same order, less those for the key removed. *)
Theorem selectAll_after_remove `{Payload} (db : RecordDB) k fs :
  dbPath db ≠ temp_db →
  strlen k < key_size →
  fst (selectAll db visit [] (snd (remove db (Some k) fs)))
  = filter (λ seen, cstr (fst seen) ≠ cstr k) (fst (selectAll db visit [] fs)).
Proof.
  intros Hapart _. rewrite !selectAll_visit_list, remove_live_records by done.
  induction (live_records db fs) as [|rec l IH]; [done|].
  rewrite fmap_cons. destruct (decide (has_key k rec)) as [Hk|Hk].
  - rewrite filter_cons_False by tauto. rewrite filter_cons_False; [done|].
    simpl. apply has_key_cstr in Hk. unfold key_of in Hk. tauto.
  - rewrite filter_cons_True by done. rewrite fmap_cons, filter_cons_True; [by f_equal|].
    simpl. intros E. by apply Hk, has_key_cstr.
Qed.

Lemma selectAll_after_remove_witness :
  fst (selectAll (H := payload_u8) db0 visit []
         (snd (remove (H := payload_u8) db0 (Some key_a) store_ab)))
  = filter (λ seen, cstr (fst seen) ≠ cstr key_a)
      (fst (selectAll (H := payload_u8) db0 visit [] store_ab)).
Proof.
  apply (selectAll_after_remove (H := payload_u8) db0 key_a store_ab);
    [done|vm_compute; lia].
Defined.

(** X15: bytes after the last whole slot, fewer than a record, are not
    read as a record: [count], [query] and [selectAll] answer as they would
    without them. *)
Theorem trailing_bytes_ignored `{Payload} (db : RecordDB) fs fs0 content stray :
  files fs0 !! dbPath db = Some content →
  files fs !! dbPath db = Some (content ++ stray) →
  aligned content → length stray < sizeofRecord →
  fst (count db fs) = fst (count db fs0)
  ∧ (∀ key, fst (query db key fs) = fst (query db key fs0))
  ∧ (∀ (V : Type) (cb : list byte → list byte → V → V) v,
       fst (selectAll db cb v fs) = fst (selectAll db cb v fs0)).
Proof.
  intros Hf0 Hf Hal Hshort.
  assert (Hl : live_records db fs = live_records db fs0).
  { rewrite (live_records_file _ _ _ Hf), (live_records_file _ _ _ Hf0).
    by rewrite slots_aligned_app, (slots_short stray), app_nil_r. }
  split; [|split].
  - destruct (count_spec db fs) as [-> _]. destruct (count_spec db fs0) as [-> _].
    by rewrite Hl.
  - intros [k|]; [|done]. destruct (query_spec db k fs) as [-> _].
    destruct (query_spec db k fs0) as [-> _]. by rewrite Hl.
  - intros V cb v. destruct (selectAll_spec db cb v fs) as [-> _].
    destruct (selectAll_spec db cb v fs0) as [-> _]. by rewrite Hl.
Qed.

Lemma trailing_bytes_ignored_witness :
  fst (count (H := payload_u8) db0 store_ab_stray)
  = fst (count (H := payload_u8) db0 store_ab)
  ∧ (∀ key, fst (query (H := payload_u8) db0 key store_ab_stray)
            = fst (query (H := payload_u8) db0 key store_ab))
  ∧ (∀ (V : Type) (cb : list byte → list byte → V → V) v,
       fst (selectAll (H := payload_u8) db0 cb v store_ab_stray)
       = fst (selectAll (H := payload_u8) db0 cb v store_ab)).
Proof.
  apply (trailing_bytes_ignored (H := payload_u8) db0 store_ab_stray store_ab
           content_ab [Byte.x07; Byte.x07]).
  - vm_compute. reflexivity.
  - vm_compute. reflexivity.
  - vm_compute. reflexivity.
  - vm_compute. lia.
Defined.

(** X16: [query] for a key of fewer than 32 characters stops at the first
    live record that carries the key: with several of them in the file it
    yields the payload of the one nearest the start. *)
Theorem query_first_match `{Payload} (db : RecordDB) k fs before rec after :
  strlen k < key_size →
  live_records db fs = before ++ rec :: after →
  Forall (λ r, ¬ has_key k r) before →
  has_key k rec →
  fst (query db (Some k) fs) = Some (rec_data rec).
Proof.
  intros _ Hl Hbefore Hk. destruct (query_spec db k fs) as [-> _].
  rewrite Hl. unfold find_live. rewrite filter_app, filter_cons_True by done.
  replace (filter (has_key k) before) with (@nil (list byte)); [done|].
  symmetry. clear -Hbefore. induction Hbefore as [|r l Hr _ IH]; [done|].
  by rewrite filter_cons_False.
Qed.

Lemma query_first_match_witness :
  fst (query (H := payload_u8) db0 (Some key_a) store_dup)
  = Some (rec_data (H := payload_u8) (make_record (H := payload_u8) key_a [Byte.x01])).
Proof.
  apply (query_first_match (H := payload_u8) db0 key_a store_dup []
           (make_record (H := payload_u8) key_a [Byte.x01])
           [make_record (H := payload_u8) key_a [Byte.x02]]).
  - vm_compute. lia.
  - vm_compute. reflexivity.
  - constructor.
  - apply make_record_has_key; [vm_compute; lia|reflexivity|reflexivity].
Defined.

(** X17: [computeCRC] is the CRC-8 with polynomial x^8 + x^2 + x + 1,
    initial value 0, most significant bit first, of the first
    [sizeof(Record) - 1] bytes of the record, and its value fits a byte. *)
Theorem computeCRC_is_crc8 `{Payload} rec :
  computeCRC rec = crc8_reference (take (sizeofRecord - 1) rec)
  ∧ (0 ≤ computeCRC rec < 256)%Z.
Proof. split; [apply crc8_is_reference|apply crc8_range]. Qed.

(** X18: [computeCRC] notices any one wrong byte: two records that differ
    in a single byte among those it reads never have the same
    [computeCRC]. *)
Theorem computeCRC_detects_byte_error `{Payload} rec i b :
  i < sizeofRecord - 1 → i < length rec → rec !! i ≠ Some b →
  computeCRC (<[i := b]> rec) ≠ computeCRC rec.
Proof.
  intros Hi Hlen Hb. unfold computeCRC. rewrite take_insert_lt by done.
  destruct (lookup_lt_is_Some_2 rec i Hlen) as [b0 Hb0].
  assert (Hp : take (sizeofRecord - 1) rec !! i = Some b0)
    by by rewrite lookup_take_lt.
  rewrite insert_take_drop by by eapply lookup_lt_Some.
  rewrite <- (take_drop_middle _ _ _ Hp) at 3.
  apply crc8_one_byte. intros ->. by rewrite Hb0 in Hb.
Qed.

Lemma computeCRC_detects_byte_error_witness :
  computeCRC (H := payload_u8) (<[0 := "b"%byte]> record_a)
  ≠ computeCRC (H := payload_u8) record_a.
Proof.
  apply (computeCRC_detects_byte_error (H := payload_u8) record_a 0 "b"%byte).
  - vm_compute. lia.
  - vm_compute. lia.
  - vm_compute. discriminate.
Defined.

(** X19: the record [insert] builds is, byte for byte: the characters of
    the key, zeros up to 32 bytes, the payload, the checksum, zeros for
    the padding; it is [sizeof(Record)] bytes long, its key field reads back
    as the key and its payload field as the payload. *)
Theorem record_format `{Payload} k data :
  strlen k < key_size → length data = sizeT →
  make_record k data
  = (cstr k ++ replicate (key_size - strlen k) Byte.x00)
    ++ data ++ [rec_crc (make_record k data)] ++ replicate tail_pad Byte.x00
  ∧ length (make_record k data) = sizeofRecord
  ∧ cstr (rec_key (make_record k data)) = cstr k
  ∧ rec_data (make_record k data) = data.
Proof.
  intros Hk Hd. split; [|split; [|split]].
  - rewrite (make_record_image k data Hk Hd) at 1. fold (key_field k).
    f_equal. f_equal. simpl. f_equal. unfold rec_crc.
    rewrite make_record_image by done.
    pose proof (key_field_length k Hk) as Hkf.
    assert (Hpre : length (key_field k ++ data) = crc_off)
      by (rewrite length_app; layout_lia).
    rewrite !(assoc_L (++)), <- Hpre.
    by rewrite (list_lookup_total_middle _ _ _ (length (key_field k ++ data))).
  - apply make_record_length.
  - by rewrite make_record_key, cstr_key_field.
  - by apply make_record_data.
Qed.

Lemma record_format_witness :
  make_record (H := payload_u8) key_31 [Byte.x05]
  = (cstr key_31 ++ replicate (key_size - strlen key_31) Byte.x00)
    ++ [Byte.x05]
    ++ [rec_crc (H := payload_u8) (make_record (H := payload_u8) key_31 [Byte.x05])]
    ++ replicate (tail_pad (Payload := payload_u8)) Byte.x00
  ∧ length (make_record (H := payload_u8) key_31 [Byte.x05])
    = sizeofRecord (H := payload_u8)
  ∧ cstr (rec_key (make_record (H := payload_u8) key_31 [Byte.x05])) = cstr key_31
  ∧ rec_data (H := payload_u8) (make_record (H := payload_u8) key_31 [Byte.x05])
    = [Byte.x05].
Proof.
  apply (record_format (H := payload_u8) key_31 [Byte.x05]).
  - vm_compute. lia.
  - reflexivity.
Defined.

(** X20: whatever the padding, the checksum [insert] stores is the CRC-8
    of all the other bytes of the record. *)
Theorem stored_checksum_is_crc8 `{Payload} k data :
  strlen k < key_size → length data = sizeT →
  byte_val (rec_crc (make_record k data))
  = crc8_reference (without_crc (make_record k data)).
Proof. apply make_record_checksum. Qed.

Lemma stored_checksum_is_crc8_witness :
  byte_val (rec_crc (H := payload_i32)
              (make_record (H := payload_i32) key_a
                 [Byte.x01; Byte.x00; Byte.x00; Byte.x00]))
  = crc8_reference
      (without_crc (H := payload_i32)
         (make_record (H := payload_i32) key_a
            [Byte.x01; Byte.x00; Byte.x00; Byte.x00])).
Proof.
  apply (stored_checksum_is_crc8 (H := payload_i32) key_a
           [Byte.x01; Byte.x00; Byte.x00; Byte.x00]).
  - vm_compute. lia.
  - reflexivity.
Defined.

(** X21: for a payload type with tail padding and a database file made of
    whole slots, a record whose checksum is not zero does not pass the test
    of the scans once written: [insert] answers [true], and the [query] for
    the key that follows fails. *)
Theorem padded_insert_is_not_found `{Payload} (db : RecordDB) k data fs :
  0 < tail_pad → dbPath db ≠ temp_db →
  strlen k < key_size → length data = sizeT → db_aligned db fs →
  rec_crc (make_record k data) ≠ Byte.x00 →
  fst (insert db (Some k) data fs) = true
  ∧ fst (query db (Some k) (snd (insert db (Some k) data fs))) = None.
Proof. apply insert_then_query_padded. Qed.

Lemma padded_insert_is_not_found_witness :
  fst (insert (H := payload_i32) db0 (Some key_a)
         [Byte.x01; Byte.x00; Byte.x00; Byte.x00] no_files) = true
  ∧ fst (query (H := payload_i32) db0 (Some key_a)
           (snd (insert (H := payload_i32) db0 (Some key_a)
                   [Byte.x01; Byte.x00; Byte.x00; Byte.x00] no_files))) = None.
Proof.
  apply (padded_insert_is_not_found (H := payload_i32) db0 key_a
           [Byte.x01; Byte.x00; Byte.x00; Byte.x00] no_files).
  - vm_compute. lia.
  - done.
  - vm_compute. lia.
  - reflexivity.
  - intros content. vm_compute. discriminate.
  - vm_compute. discriminate.
Defined.

(** *** Files of live records only *)

Section AllLive.
Context `{Payload}.
Variable db : RecordDB.
Hypothesis sidecar_apart : dbPath db ≠ temp_db.

Lemma remove_db_slots k fs :
  db_slots db (snd (remove db (Some k) fs))
  = if fst (remove db (Some k) fs)
    then filter (λ rec, ¬ has_key k rec) (live_records db fs)
    else db_slots db fs.
Proof.
  unfold db_slots at 1. rewrite remove_db_file by done.
  destruct (fst (remove db (Some k) fs)); [|done]. simpl.
  apply slots_concat_all. unfold live_records, db_slots.
  destruct (files fs !! dbPath db) as [c|]; simpl; [|by rewrite filter_nil].
  apply Forall_forall. intros rec [_ Hin]%list_elem_of_filter. revert rec Hin.
  apply Forall_forall, filter_sized.
Qed.

Lemma insert_db_slots k data fs :
  strlen k < key_size → db_aligned db fs →
  db_slots db (snd (insert db (Some k) data fs))
  = db_slots db (snd (remove db (Some k) fs)) ++ [make_record k data].
Proof.
  intros Hk Hal. pose proof (remove_aligned db sidecar_apart k fs Hal) as Hal1.
  unfold db_slots at 1. rewrite insert_db_file by done. simpl.
  assert (Hnew : slots (make_record k data) = [make_record k data]).
  { rewrite <- (app_nil_r (make_record k data)) at 1.
    by rewrite slots_app, slots_nil by apply make_record_length. }
  unfold db_slots, db_aligned in *.
  destruct (files (snd (remove db (Some k) fs)) !! dbPath db) as [c|]; simpl.
  - by rewrite slots_aligned_app, Hnew by by apply Hal1.
  - done.
Qed.

(** A property of records that holds of every record [insert] builds
    and of every slot of the file still holds of every slot after any call,
    since a slot is either new or copied. *)
Lemma exec_slots_forall (P : list byte → Prop) o fs :
  (∀ k data, strlen k < key_size → length data = sizeT → P (make_record k data)) →
  well_typed o → store_ok db fs →
  Forall P (db_slots db fs) → Forall P (db_slots db (snd (exec db o fs))).
Proof.
  intros Hnew Ho [Hal Hun] Hall.
  assert (Hrm : ∀ k, Forall P (db_slots db (snd (remove db (Some k) fs)))).
  { intros k. rewrite remove_db_slots. case_match; [|done].
    rewrite Forall_forall in Hall.
    apply Forall_forall. intros rec [_ Hin]%list_elem_of_filter.
    apply list_elem_of_filter in Hin as [_ Hin]. by apply Hall. }
  assert (Hsame : ∀ fs', files fs' = files fs → Forall P (db_slots db fs')).
  { intros fs' E. unfold db_slots in *. by rewrite E. }
  destruct o as [[k|] data|[k|]|key|key| | |]; simpl in *; try done.
  - unfold mbind, io_bind.
    destruct (decide (key_size ≤ strlen k)) as [Hlong|Hk].
    { by rewrite insert_long. }
    pose proof (insert_db_slots k data fs ltac:(lia) Hal) as Hs.
    destruct (insert db (Some k) data fs) as [b fs1]. simpl in *. rewrite Hs.
    apply Forall_app. split; [apply Hrm|].
    apply Forall_singleton, Hnew; done || lia.
  - unfold mbind, io_bind. specialize (Hrm k).
    by destruct (remove db (Some k) fs).
  - unfold mbind, io_bind. pose proof (query_files db key fs).
    destruct (query db key fs). by apply Hsame.
  - unfold exists_, mbind, io_bind. pose proof (query_files db key fs).
    destruct (query db key fs). by apply Hsame.
  - unfold mbind, io_bind. destruct (count_spec db fs) as [_ ?].
    destruct (count db fs). by apply Hsame.
  - unfold mbind, io_bind. destruct (selectAll_spec db visit [] fs) as [_ ?].
    destruct (selectAll db visit [] fs). by apply Hsame.
  - unfold db_slots. simpl. by rewrite lookup_delete_eq.
Qed.

Lemma reachable_slots_forall (P : list byte → Prop) fs :
  (∀ k data, strlen k < key_size → length data = sizeT → P (make_record k data)) →
  reachable db fs → Forall P (db_slots db fs).
Proof.
  intros Hnew. induction 1 as [fs Hf|fs o Hr IH Ho].
  - unfold db_slots. unfold fresh in Hf. by rewrite Hf.
  - apply exec_slots_forall; try done. by apply reachable_ok.
Qed.

Lemma reachable_all_live fs :
  tail_pad = 0 → reachable db fs → Forall live (db_slots db fs).
Proof.
  intros Hpad. apply reachable_slots_forall.
  intros k data Hk Hd. by apply make_record_live.
Qed.

(** Every key field in the file holds a terminator. *)
Lemma reachable_keys_terminated fs :
  reachable db fs → Forall (λ rec, strlen (rec_key rec) < key_size) (db_slots db fs).
Proof.
  apply reachable_slots_forall. intros k data Hk Hd.
  by rewrite <- cstr_length, make_record_key, cstr_key_field, cstr_length.
Qed.
End AllLive.

(** X22: for a payload type without tail padding, a store that only the
    class has written holds live records and nothing else: every slot of
    its file is live, and the file is [count()] records long to the byte. *)
Theorem reachable_file_is_live_records `{Payload} (db : RecordDB) fs :
  tail_pad = 0 → dbPath db ≠ temp_db → reachable db fs →
  db_slots db fs = live_records db fs
  ∧ (∀ content, files fs !! dbPath db = Some content →
       content = concat (live_records db fs)
       ∧ length content = fst (count db fs) * sizeofRecord).
Proof.
  intros Hpad Hapart Hr.
  pose proof (reachable_all_live db Hapart fs Hpad Hr) as Hlive.
  destruct (reachable_ok db Hapart fs Hr) as [Hal _].
  assert (E : db_slots db fs = live_records db fs).
  { unfold live_records. by rewrite filter_all. }
  split; [done|]. intros content Hc. rewrite <- E.
  destruct (count_spec db fs) as [-> _]. rewrite <- E.
  unfold db_slots. rewrite Hc. simpl.
  rewrite aligned_concat by by apply Hal. split; [done|].
  rewrite <- (aligned_concat content) at 1 by by apply Hal.
  pose proof (slots_sized content) as Hsized.
  induction Hsized as [|rec l Hrec _ IH]; [done|].
  cbn [concat length]. rewrite length_app, IH, Hrec. lia.
Qed.

Lemma reachable_file_is_live_records_witness :
  db_slots (H := payload_u8) db0 store_ab = live_records (H := payload_u8) db0 store_ab
  ∧ (∀ content, files store_ab !! dbPath db0 = Some content →
       content = concat (live_records (H := payload_u8) db0 store_ab)
       ∧ length content
         = fst (count (H := payload_u8) db0 store_ab) * sizeofRecord (H := payload_u8)).
Proof.
  apply (reachable_file_is_live_records (H := payload_u8) db0 store_ab).
  - reflexivity.
  - done.
  - apply (reachable_run (H := payload_u8) db0);
      [by apply reach_fresh|by repeat constructor].
Defined.

(** X23: [insert] and then [remove] of the same key: for a payload type
    without tail padding and a file of whole slots the [remove] answers
    [true], the key is gone, and the live records are those the store had
    under the other keys, in their order. *)
Theorem insert_then_remove `{Payload} (db : RecordDB) k data fs :
  tail_pad = 0 → dbPath db ≠ temp_db →
  strlen k < key_size → length data = sizeT → db_aligned db fs →
  let fs1 := snd (insert db (Some k) data fs) in
  let fs2 := snd (remove db (Some k) fs1) in
  fst (remove db (Some k) fs1) = true
  ∧ fst (query db (Some k) fs2) = None
  ∧ live_records db fs2 = filter (λ rec, ¬ has_key k rec) (live_records db fs).
Proof.
  intros Hpad Hapart Hk Hd Hal fs1 fs2.
  assert (Hl1 : live_records db fs1
                = filter (λ rec, ¬ has_key k rec) (live_records db fs)
                  ++ [make_record k data]).
  { unfold fs1. rewrite insert_live_records by done.
    by rewrite (filter_cons_True live) by by apply make_record_live. }
  assert (Hnew : has_key k (make_record k data)) by by apply make_record_has_key.
  split; [|split].
  - rewrite remove_result by done. apply bool_decide_eq_true_2.
    rewrite Hl1. apply Exists_app. right. by left.
  - destruct (query_spec db k fs2) as [-> _]. unfold fs2.
    rewrite remove_live_records by done. unfold find_live.
    by rewrite filter_none_left.
  - unfold fs2. rewrite remove_live_records, Hl1 by done.
    rewrite filter_app, filter_cons_False, app_nil_r by tauto.
    apply filter_all, Forall_forall. by intros rec [? _]%list_elem_of_filter.
Qed.

Lemma insert_then_remove_witness :
  let fs1 := snd (insert (H := payload_u8) db0 (Some key_c) [Byte.x03] store_ab) in
  let fs2 := snd (remove (H := payload_u8) db0 (Some key_c) fs1) in
  fst (remove (H := payload_u8) db0 (Some key_c) fs1) = true
  ∧ fst (query (H := payload_u8) db0 (Some key_c) fs2) = None
  ∧ live_records (H := payload_u8) db0 fs2
    = filter (λ rec, ¬ has_key key_c rec) (live_records (H := payload_u8) db0 store_ab).
Proof.
  apply (insert_then_remove (H := payload_u8) db0 key_c [Byte.x03] store_ab).
  - reflexivity.
  - done.
  - vm_compute. lia.
  - reflexivity.
  - apply store_ab_ok.
Defined.

(** X24: a key of 32 characters or more is never in a store that only the
    class has written: [query] and [exists] fail for it and [remove]
    answers [false], whatever the layout. *)
Theorem long_key_never_found `{Payload} (db : RecordDB) k fs :
  dbPath db ≠ temp_db → reachable db fs → key_size ≤ strlen k →
  fst (query db (Some k) fs) = None
  ∧ fst (exists_ db (Some k) fs) = false
  ∧ fst (remove db (Some k) fs) = false.
Proof.
  intros Hapart Hr Hlong.
  assert (Hno : ¬ Exists (has_key k) (live_records db fs)).
  { rewrite Exists_exists. intros (rec & Hin & Hk).
    apply list_elem_of_filter in Hin as [_ Hin].
    pose proof (reachable_keys_terminated db Hapart fs Hr) as Hterm.
    rewrite Forall_forall in Hterm. specialize (Hterm rec Hin).
    apply has_key_cstr in Hk. apply (f_equal length) in Hk.
    unfold key_of in Hk. rewrite !cstr_length in Hk. lia. }
  split; [|split].
  - destruct (query_spec db k fs) as [-> _]. unfold find_live.
    destruct (filter (has_key k) (live_records db fs)) as [|rec l] eqn:Ef; [done|].
    destruct Hno. apply Exists_exists. exists rec.
    assert (Hin : rec ∈ filter (has_key k) (live_records db fs)) by (rewrite Ef; left).
    apply list_elem_of_filter in Hin. tauto.
  - destruct (exists_spec db k fs) as [-> _]. by apply bool_decide_eq_false_2.
  - rewrite remove_result by done. by apply bool_decide_eq_false_2.
Qed.

Lemma long_key_never_found_witness :
  fst (query (H := payload_u8) db0 (Some (replicate 32 "k"%byte)) store_ab) = None
  ∧ fst (exists_ (H := payload_u8) db0 (Some (replicate 32 "k"%byte)) store_ab) = false
  ∧ fst (remove (H := payload_u8) db0 (Some (replicate 32 "k"%byte)) store_ab) = false.
Proof.
  apply (long_key_never_found (H := payload_u8) db0 (replicate 32 "k"%byte) store_ab).
  - done.
  - apply (reachable_run (H := payload_u8) db0);
      [by apply reach_fresh|by repeat constructor].
  - vm_compute. lia.
Defined.

(** X25: [count()] is the number of calls [selectAll] makes, and what
    [query] yields for a key of fewer than 32 characters is the payload of
    one of those calls, made with a key field that reads as the key. *)
Theorem count_query_agree_with_selectAll `{Payload} (db : RecordDB) k fs :
  strlen k < key_size →
  fst (count db fs) = length (fst (selectAll db visit [] fs))
  ∧ (∀ data, fst (query db (Some k) fs) = Some data →
       ∃ field, (field, data) ∈ fst (selectAll db visit [] fs)
                ∧ cstr field = cstr k).
Proof.
  intros _. rewrite selectAll_visit_list. split.
  - destruct (count_spec db fs) as [-> _]. by rewrite length_fmap.
  - intros data. destruct (query_spec db k fs) as [-> _]. unfold find_live.
    destruct (head _) as [rec|] eqn:Eh; [|done]. intros [= <-].
    apply head_Some_elem_of, list_elem_of_filter in Eh as [Hk Hin].
    exists (rec_key rec). split; [|by apply has_key_cstr].
    apply list_elem_of_fmap. by exists rec.
Qed.

Lemma count_query_agree_with_selectAll_witness :
  fst (count (H := payload_u8) db0 store_ab)
  = length (fst (selectAll (H := payload_u8) db0 visit [] store_ab))
  ∧ (∀ data, fst (query (H := payload_u8) db0 (Some key_b) store_ab) = Some data →
       ∃ field, (field, data) ∈ fst (selectAll (H := payload_u8) db0 visit [] store_ab)
                ∧ cstr field = cstr key_b).
Proof.
  apply (count_query_agree_with_selectAll (H := payload_u8) db0 key_b store_ab).
  vm_compute. lia.
Defined.
